(** * Front-matter fallback extractor: a shallow embedding

    Source: [src/data/code/parsing/parse_jocs_fallback_pdfplumber.py].

    Python [str] values are lists of Unicode code points ([Z]); the
    coordinates and font sizes that pdfplumber delivers as floats are exact
    rationals ([Q]), so comparisons are the mathematical ones.  Regular
    expressions are abstract syntax trees run by a backtracking matcher with
    Python's priorities (ordered alternation, greedy repetition, leftmost
    search).

    Character classification is exact on the blocks the program's own letter
    class [À-ž] spans (U+0000 to U+017F) and on the superscript digits;
    [\d] follows the Unicode decimal digits (category Nd).  Beyond U+017F the
    other code points count as caseless non-word symbols. *)

From Stdlib Require Import String Ascii Bool List Permutation Sorted Relations ZArith QArith Qabs Lia Lqa.
Import ListNotations.
Local Open Scope Z_scope.

Set Implicit Arguments.

(** ** Strings as code points *)

Definition str := list Z.

Fixpoint utf8_decode (bs : list Z) : str :=
  match bs with
  | [] => []
  | b :: r =>
      if b <? 128 then b :: utf8_decode r
      else if b <? 224 then
        match r with
        | b1 :: r1 => ((b - 192) * 64 + (b1 - 128)) :: utf8_decode r1
        | _ => []
        end
      else if b <? 240 then
        match r with
        | b1 :: b2 :: r2 =>
            ((b - 224) * 4096 + (b1 - 128) * 64 + (b2 - 128)) :: utf8_decode r2
        | _ => []
        end
      else
        match r with
        | b1 :: b2 :: b3 :: r3 =>
            ((b - 240) * 262144 + (b1 - 128) * 4096 + (b2 - 128) * 64 + (b3 - 128))
              :: utf8_decode r3
        | _ => []
        end
  end.

(** A literal of the source, read as the code points it denotes. *)
Definition u (s : string) : str :=
  utf8_decode (map (fun a => Z.of_N (N_of_ascii a)) (list_ascii_of_string s)).

Definition str_eqb (a b : str) : bool :=
  if list_eq_dec Z.eq_dec a b then true else false.

Definition in_range (lo hi c : Z) : bool := (lo <=? c) && (c <=? hi).

(** [str.isspace] on one code point; [\s] of a [str] pattern is the same set. *)
Definition is_space (c : Z) : bool :=
  in_range 9 13 c || in_range 28 32 c || (c =? 133) || (c =? 160)
  || (c =? 5760) || in_range 8192 8202 c || (c =? 8232) || (c =? 8233)
  || (c =? 8239) || (c =? 8287) || (c =? 12288).

(** First code points of the runs of ten decimal digits (category Nd). *)
Definition nd_zeros : list Z :=
  [ 0x30; 0x660; 0x6F0; 0x7C0; 0x966; 0x9E6; 0xA66; 0xAE6; 0xB66; 0xBE6;
    0xC66; 0xCE6; 0xD66; 0xDE6; 0xE50; 0xED0; 0xF20; 0x1040; 0x1090; 0x17E0;
    0x1810; 0x1946; 0x19D0; 0x1A80; 0x1A90; 0x1B50; 0x1BB0; 0x1C40; 0x1C50;
    0xA620; 0xA8D0; 0xA900; 0xA9D0; 0xA9F0; 0xAA50; 0xABF0; 0xFF10;
    0x104A0; 0x10D30; 0x11066; 0x110F0; 0x11136; 0x111D0; 0x112F0; 0x11450;
    0x114D0; 0x11650; 0x116C0; 0x11730; 0x118E0; 0x11950; 0x11C50; 0x11D50;
    0x11DA0; 0x16A60; 0x16AC0; 0x16B50; 0x1E140; 0x1E2F0; 0x1E950; 0x1FBF0 ].

(** [\d] of a [str] pattern. *)
Definition is_decimal (c : Z) : bool :=
  existsb (fun z => in_range z (z + 9) c) nd_zeros || in_range 0x1D7CE 0x1D7FF c.

Definition is_ascii_upper (c : Z) : bool := in_range 65 90 c.
Definition is_ascii_lower (c : Z) : bool := in_range 97 122 c.

(** [\w] of a [str] pattern: alphanumerics and the underscore. *)
Definition is_word (c : Z) : bool :=
  is_ascii_upper c || is_ascii_lower c || is_decimal c || (c =? 95)
  || (c =? 0xAA) || (c =? 0xB2) || (c =? 0xB3) || (c =? 0xB5) || (c =? 0xB9)
  || (c =? 0xBA) || in_range 0xBC 0xBE c
  || in_range 0xC0 0xD6 c || in_range 0xD8 0xF6 c || in_range 0xF8 0x17F c
  || (c =? 0x2070) || in_range 0x2074 0x2079 c.

(** [str.lower]: the code points whose lower case holds an ASCII letter are
    A to Z, the Kelvin sign and the dotted capital I; the program only ever
    compares the result with ASCII text. *)
Definition lower_cp (c : Z) : str :=
  if is_ascii_upper c then [c + 32]
  else if c =? 0x212A then [107]
  else if c =? 0x130 then [105; 0x307]
  else [c].

Definition lower (s : str) : str := flat_map lower_cp s.

(** Case folding of [re.I] on the ASCII letters: besides the two cases, the
    long s matches [s], the Kelvin sign [k], and both odd i's match [i]. *)
Definition fold_cp (c : Z) : Z :=
  if is_ascii_upper c then c + 32
  else if c =? 0x212A then 107
  else if c =? 0x17F then 115
  else if (c =? 0x130) || (c =? 0x131) then 105
  else c.

Definition upper_ascii (c : Z) : Z := if is_ascii_lower c then c - 32 else c.

(** ** String methods *)

Fixpoint lstrip_by (p : Z -> bool) (s : str) : str :=
  match s with
  | [] => []
  | c :: r => if p c then lstrip_by p r else s
  end.

Fixpoint rstrip_by (p : Z -> bool) (s : str) : str :=
  match s with
  | [] => []
  | c :: r =>
      match rstrip_by p r with
      | [] => if p c then [] else [c]
      | r' => c :: r'
      end
  end.

Definition strip_by (p : Z -> bool) (s : str) : str := rstrip_by p (lstrip_by p s).

(** [s.strip()] *)
Definition strip (s : str) : str := strip_by is_space s.

(** [s.strip(chars)] *)
Definition strip_chars (chars : str) (s : str) : str :=
  strip_by (fun c => existsb (Z.eqb c) chars) s.

(** [s.split()]: the maximal runs of non-whitespace; [cur] is the run being
    read. *)
Fixpoint split_ws_aux (cur : str) (s : str) : list str :=
  match s with
  | [] => match cur with [] => [] | _ => [cur] end
  | c :: r =>
      if is_space c
      then match cur with [] => split_ws_aux [] r | _ => cur :: split_ws_aux [] r end
      else split_ws_aux (cur ++ [c]) r
  end.

Definition split_ws (s : str) : list str := split_ws_aux [] s.

(** [sep.join(parts)] *)
Fixpoint join (sep : str) (parts : list str) : str :=
  match parts with
  | [] => []
  | [p] => p
  | p :: rest => p ++ sep ++ join sep rest
  end.

Fixpoint starts_with (p s : str) : bool :=
  match p, s with
  | [], _ => true
  | a :: p', b :: s' => (a =? b) && starts_with p' s'
  | _ :: _, [] => false
  end.

(** [p in s] for strings *)
Fixpoint contains (p s : str) : bool :=
  starts_with p s || match s with [] => false | _ :: s' => contains p s' end.

(** [re.sub(r"\s+", " ", s)]: each maximal run of whitespace becomes one
    space; [in_run] tells that the previous character was whitespace. *)
Fixpoint collapse_aux (in_run : bool) (s : str) : str :=
  match s with
  | [] => []
  | c :: r =>
      if is_space c
      then (if in_run then collapse_aux true r else 32 :: collapse_aux true r)
      else c :: collapse_aux false r
  end.

Definition collapse_ws (s : str) : str := collapse_aux false s.

(** [re.sub(r"\s+", "", s)] *)
Definition remove_ws (s : str) : str := filter (fun c => negb (is_space c)) s.

(** ** Regular expressions *)

Inductive cset : Type :=
| CLit (c : Z)
| CRange (lo hi : Z)
| CSpace
| CDigit
| CDot.

Inductive regex : Type :=
| REps
| RSet (items : list cset)
| RSeq (a b : regex)
| RAlt (a b : regex)
| RStar (a : regex)
| RGroup (n : nat) (a : regex)
| RBol
| REol
| RWordB.

Definition cset_matches (ic : bool) (it : cset) (c : Z) : bool :=
  match it with
  | CLit x => if ic then fold_cp c =? fold_cp x else c =? x
  | CRange lo hi =>
      in_range lo hi c
      || (ic && (in_range lo hi (fold_cp c) || in_range lo hi (upper_ascii (fold_cp c))))
  | CSpace => is_space c
  | CDigit => is_decimal c
  | CDot => negb (c =? 10)
  end.

(** A position in the subject: what was read (latest first), what is left,
    and the groups captured so far. *)
Record mstate : Type := MState {
  before : str;
  after : str;
  caps : list (nat * str)
}.

Definition consumed (st st' : mstate) : str :=
  rev (firstn (length (before st') - length (before st)) (before st')).

Definition at_word_boundary (st : mstate) : bool :=
  xorb (match before st with c :: _ => is_word c | [] => false end)
       (match after st with c :: _ => is_word c | [] => false end).

(** Greedy repetition: one more turn of [body] when it moves forward, the
    continuation otherwise; [n] bounds the turns by the text that is left. *)
Fixpoint star_loop (body : mstate -> (mstate -> option mstate) -> option mstate)
         (k : mstate -> option mstate) (n : nat) (st : mstate) : option mstate :=
  match n with
  | O => k st
  | S n' =>
      match body st
              (fun st' =>
                 if (length (after st') <? length (after st))%nat
                 then star_loop body k n' st' else None) with
      | Some x => Some x
      | None => k st
      end
  end.

Fixpoint rmatch (ic : bool) (r : regex) (st : mstate)
         (k : mstate -> option mstate) {struct r} : option mstate :=
  match r with
  | REps => k st
  | RSet items =>
      match after st with
      | c :: rest =>
          if existsb (fun it => cset_matches ic it c) items
          then k (MState (c :: before st) rest (caps st))
          else None
      | [] => None
      end
  | RSeq a b => rmatch ic a st (fun st' => rmatch ic b st' k)
  | RAlt a b =>
      match rmatch ic a st k with
      | Some x => Some x
      | None => rmatch ic b st k
      end
  | RStar a => star_loop (rmatch ic a) k (length (after st)) st
  | RGroup n a =>
      rmatch ic a st
        (fun st' => k (MState (before st') (after st') ((n, consumed st st') :: caps st')))
  | RBol => match before st with [] => k st | _ => None end
  | REol => match after st with [] => k st | [10] => k st | _ => None end
  | RWordB => if at_word_boundary st then k st else None
  end.

(** The text of group [n] ([m.group(n)]); a group that took no part in the
    match reads as the empty string here. *)
Fixpoint group (n : nat) (cs : list (nat * str)) : str :=
  match cs with
  | [] => []
  | (i, s) :: rest => if Nat.eqb i n then s else group n rest
  end.

(** A match object: where it starts, the text matched, the groups. *)
Record rmatch_obj : Type := MObj {
  m_start : nat;
  m_text : str;
  m_caps : list (nat * str)
}.

Definition match_at (ic : bool) (r : regex) (bef aft : str) : option mstate :=
  rmatch ic r (MState bef aft []) (fun st => Some st).

Definition obj_of (bef : str) (st : mstate) : rmatch_obj :=
  MObj (length bef) (consumed (MState bef [] []) st) (caps st).

(** [re.match] *)
Definition re_match (ic : bool) (r : regex) (s : str) : option rmatch_obj :=
  option_map (obj_of []) (match_at ic r [] s).

(** [re.fullmatch] *)
Definition re_fullmatch (ic : bool) (r : regex) (s : str) : bool :=
  match rmatch ic r (MState [] s [])
          (fun st => match after st with [] => Some st | _ => None end) with
  | Some _ => true
  | None => false
  end.

Fixpoint search_from (ic : bool) (r : regex) (bef aft : str) : option rmatch_obj :=
  match match_at ic r bef aft with
  | Some st => Some (obj_of bef st)
  | None =>
      match aft with
      | [] => None
      | c :: aft' => search_from ic r (c :: bef) aft'
      end
  end.

(** [re.search] *)
Definition re_search (ic : bool) (r : regex) (s : str) : option rmatch_obj :=
  search_from ic r [] s.

Definition re_found (ic : bool) (r : regex) (s : str) : bool :=
  match re_search ic r s with Some _ => true | None => false end.

(** The successive non-overlapping matches, left to right, with the text
    between them: [inl] is unmatched text, [inr] a match. *)
Fixpoint scan (fuel : nat) (ic : bool) (r : regex) (bef aft gap : str)
  : list (str + rmatch_obj) :=
  match fuel with
  | O => [inl (gap ++ aft)]
  | S f =>
      match match_at ic r bef aft with
      | Some st =>
          let o := obj_of bef st in
          match m_text o, aft with
          | [], c :: aft' => inl gap :: inr o :: scan f ic r (c :: bef) aft' [c]
          | [], [] => [inl gap; inr o]
          | _ :: _, _ => inl gap :: inr o :: scan f ic r (before st) (after st) []
          end
      | None =>
          match aft with
          | [] => [inl gap]
          | c :: aft' => scan f ic r (c :: bef) aft' (gap ++ [c])
          end
      end
  end.

Definition re_scan (ic : bool) (r : regex) (s : str) : list (str + rmatch_obj) :=
  scan (S (length s)) ic r [] s [].

(** [re.sub] with the replacement computed from the groups. *)
Definition re_sub (ic : bool) (r : regex) (repl : rmatch_obj -> str) (s : str) : str :=
  flat_map (fun x => match x with inl t => t | inr o => repl o end) (re_scan ic r s).

(** [re.findall] for a pattern without groups. *)
Definition re_findall (ic : bool) (r : regex) (s : str) : list str :=
  flat_map (fun x => match x with inl _ => [] | inr o => [m_text o] end) (re_scan ic r s).

(** [re.split] for a pattern without groups. *)
Definition re_split (ic : bool) (r : regex) (s : str) : list str :=
  let fix go (cur : str) (xs : list (str + rmatch_obj)) : list str :=
    match xs with
    | [] => [cur]
    | inl t :: rest => go (cur ++ t) rest
    | inr _ :: rest => cur :: go [] rest
    end in
  go [] (re_scan ic r s).

(** Pattern syntax. *)
Definition rchar (c : Z) : regex := RSet [CLit c].
Fixpoint rlit_cps (s : str) : regex :=
  match s with
  | [] => REps
  | [c] => rchar c
  | c :: r => RSeq (rchar c) (rlit_cps r)
  end.
Definition rlit (s : string) : regex := rlit_cps (u s).
Definition rplus (a : regex) : regex := RSeq a (RStar a).
Definition ropt (a : regex) : regex := RAlt a REps.
Fixpoint rseq (rs : list regex) : regex :=
  match rs with
  | [] => REps
  | [a] => a
  | a :: rest => RSeq a (rseq rest)
  end.
Fixpoint ralt (rs : list regex) : regex :=
  match rs with
  | [] => RSet []
  | [a] => a
  | a :: rest => RAlt a (ralt rest)
  end.
Definition rspace : regex := RSet [CSpace].
Definition rdigit : regex := RSet [CDigit].
Definition rdot : regex := RSet [CDot].
Definition rlower : regex := RSet [CRange 97 122].
Definition rupper : regex := RSet [CRange 65 90].
Definition rwords (ws : list string) : regex := ralt (map rlit ws).
(** [X\s*Y\s*Z]: the letters of a word with optional whitespace between. *)
Fixpoint rspaced_cps (s : str) : regex :=
  match s with
  | [] => REps
  | [c] => rchar c
  | c :: r => RSeq (rchar c) (RSeq (RStar rspace) (rspaced_cps r))
  end.
Definition rspaced (s : string) : regex := rspaced_cps (u s).

(** ** Module constants *)

(** [SUP_TO_DIGIT] and [DIGIT_TO_SUP] *)
Definition SUPS : str := u "⁰¹²³⁴⁵⁶⁷⁸⁹".
Definition DIGITS : str := u "0123456789".

Fixpoint translate_cp (from to : str) (c : Z) : Z :=
  match from, to with
  | f :: from', t :: to' => if c =? f then t else translate_cp from' to' c
  | _, _ => c
  end.

(** [s.translate(str.maketrans(from, to))] *)
Definition translate (from to : str) (s : str) : str := map (translate_cp from to) s.

Definition RE_ARTINFO : regex :=
  RGroup 1 (ralt [ rseq [rlit "ARTICLE"; rplus rspace; rlit "INFO"];
                   rseq [rspaced "ARTICLE"; rplus rspace; rspaced "INFO"];
                   rseq [rspaced "article"; rplus rspace; rspaced "info"] ]).

Definition RE_ABS_HDR : regex :=
  RGroup 1 (ralt [ rlit "ABSTRACT"; rspaced "ABSTRACT"; rspaced "abstract" ]).

Definition RE_STOP_ANY : regex :=
  RGroup 1 (ralt [ rseq [rlit "ARTICLE"; rplus rspace; rlit "INFO"];
                   rlit "ABSTRACT";
                   rlit "Keywords";
                   rseq [rlit "Key"; RStar rspace; rlit "words"];
                   rseq [rlit "Article"; rplus rspace; rlit "history"];
                   rlit "Received";
                   rlit "Accepted";
                   rseq [rlit "Available"; rplus rspace; rlit "online"] ]).

Definition RE_INTRO : regex :=
  rseq [ RGroup 1 (RAlt RBol rspace);
         RGroup 2 (RAlt (rlit "Introduction")
                        (rseq [rlit "1"; rchar 46; RStar rspace; rlit "Introduction"]));
         RWordB ].

Definition RE_KEYWORDS_HDR : regex :=
  rseq [ RWordB;
         RGroup 1 (RAlt (rseq [rlit "Key"; RStar rspace; rlit "words"]) (rlit "Keywords"));
         RWordB ].

Definition AFF_CUES : regex :=
  rseq [ RWordB;
         RGroup 1 (ralt [ rlit "Department";
                          rseq [rlit "Dept"; rchar 46; ropt (rchar 32)];
                          rlit "School"; rlit "Institute"; rlit "Faculty";
                          rlit "Center"; rlit "Centre"; rlit "Laboratory"; rlit "Lab";
                          rlit "University"; rlit "Universit"; rlit "College";
                          rlit "Hospital"; rlit "Academy";
                          rseq [rlit "Research"; rplus rspace; rlit "Group"];
                          rlit "IIT"; rlit "MIT"; rlit "ETH"; rlit "CNRS"; rlit "INRIA" ]);
         RWordB ].

Definition AFF_CUES_MERGED : regex :=
  RGroup 1 (rwords [ "Department"; "School"; "Institute"; "Faculty"; "Center";
                     "Centre"; "Laboratory"; "University"; "College"; "Hospital";
                     "Academy" ]%string).

(** All the patterns above are compiled with [re.I]. *)
Definition found (r : regex) (s : str) : bool := re_found true r s.

(** ** Utilities *)

(** The replacement template [r'\1 \2']. *)
Definition repl_1_sp_2 (o : rmatch_obj) : str :=
  group 1 (m_caps o) ++ u " " ++ group 2 (m_caps o).

Definition re_lower_upper : regex := RSeq (RGroup 1 rlower) (RGroup 2 rupper).

Definition re_glued_particle : regex :=
  rseq [ RWordB;
         RGroup 1 (rwords [ "of"; "and"; "the"; "for"; "in"; "at"; "to"; "with";
                            "from"; "by"; "de"; "la"; "le"; "des"; "du" ]%string);
         RGroup 2 rupper ].

Definition re_of_article : regex :=
  rseq [ RWordB; RGroup 1 (rlit "of"); RGroup 2 (rwords ["the"; "a"; "an"]%string); RWordB ].

Definition fix_merged_text (text : str) : str :=
  match text with
  | [] => []
  | _ =>
      let text := strip text in
      let words := split_ws text in
      if (3 <=? length words)%nat then text
      else if (15 <? length text)%nat && (length words <=? 2)%nat then
        let fixed := re_sub false re_lower_upper repl_1_sp_2 text in
        let fixed := re_sub true re_glued_particle repl_1_sp_2 fixed in
        let fixed := re_sub true re_of_article repl_1_sp_2 fixed in
        fixed
      else if (length words =? 1)%nat && (10 <? length text)%nat then
        re_sub false re_lower_upper repl_1_sp_2 text
      else text
  end.

Definition aff_keywords : list str :=
  map u [ "department"; "school"; "institute"; "faculty"; "center"; "centre";
          "laboratory"; "university"; "college"; "hospital"; "academy"; "iit";
          "mit"; "eth"; "cnrs"; "inria" ]%string.

Definition repeat_re (n : nat) (a : regex) : regex := rseq (repeat a n).

(** [\d{5,6}] *)
Definition re_postcode : regex := RSeq (repeat_re 5 rdigit) (ropt rdigit).

Definition re_country : regex :=
  rseq [ RWordB;
         RGroup 1 (rwords [ "USA"; "UK"; "India"; "China"; "Germany"; "France";
                            "Japan"; "Canada"; "Australia" ]%string);
         RWordB ].

Definition is_likely_affiliation (text : str) : bool :=
  match text with
  | [] => false
  | _ =>
      let t := strip text in
      let t_collapsed := lower (remove_ws t) in
      if existsb (fun kw => contains kw t_collapsed) aff_keywords then true
      else if re_found false re_postcode t then true
      else if re_found true re_country t then true
      else false
  end.

Definition banner_patterns : list str :=
  map u [ "sciencedirect"; "contents lists available"; "contentslistsavailable";
          "journal homepage"; "journalhomepage"; "www.elsevier.com";
          "elsevier.com/locate"; "check for updates"; "checkforupdates";
          "crossmark" ]%string.

Definition re_journal_only : regex :=
  rseq [ RBol; rlit "journal"; rplus rspace; rlit "of"; rplus rspace;
         rlit "computational"; rplus rspace; rlit "science"; RStar rspace; REol ].

Definition re_journal_volume : regex :=
  rseq [ rlit "journal"; rplus rspace; rlit "of"; rplus rspace;
         rlit "computational"; rplus rspace; rlit "science"; rplus rspace;
         rplus rdigit; RStar rspace; rchar 40; repeat_re 4 rdigit; rchar 41 ].

(** [^\d+\s*\(\d{4}\)\s*\d+[\s–\-]*\d*$] *)
Definition re_volume_pages : regex :=
  rseq [ RBol; rplus rdigit; RStar rspace; rchar 40; repeat_re 4 rdigit; rchar 41;
         RStar rspace; rplus rdigit; RStar (RSet [CSpace; CLit 0x2013; CLit 45]);
         RStar rdigit; REol ].

Definition is_some {A : Type} (o : option A) : bool :=
  match o with Some _ => true | None => false end.

Definition is_header_banner (text : str) : bool :=
  match text with
  | [] => false
  | _ =>
      let t := strip text in
      let t_lower := lower t in
      let t_collapsed := remove_ws t_lower in
      if (length t <? 3)%nat then false
      else if contains (u "journalofcomputationalscience") t_collapsed then true
      else if starts_with (u "journal of computational science") t_lower then true
      else if is_some (re_match false re_journal_only t_lower) then true
      else if re_found false re_journal_volume t_lower then true
      else if is_some (re_match false re_volume_pages (strip t)) then true
      else if existsb (fun p => contains p t_collapsed || contains p t_lower)
                      banner_patterns then true
      else if existsb (str_eqb t_collapsed) [u "sciencedirect"; u "elsevier"] then true
      else false
  end.

(** ** Words, lines and the clusterer *)

Record Word : Type := mkWord {
  w_text : str;
  w_x0 : Q;
  w_x1 : Q;
  w_top : Q;
  w_size : option Q          (* [w.get("size", 0)] reads an absent size as 0 *)
}.

Record Line : Type := mkLine {
  line_y : Q;
  line_text : str;
  line_max_size : Q
}.

Record Bucket : Type := mkBucket {
  b_y : Q;
  b_ws : list Word
}.

Definition Qltb (a b : Q) : bool := negb (Qle_bool b a).

(** [sorted(l, key=key)]: stable, so an insertion sort that keeps equal keys
    in their order. *)
Fixpoint insert_by {A : Type} (key : A -> Q) (x : A) (l : list A) : list A :=
  match l with
  | [] => [x]
  | h :: t => if Qle_bool (key x) (key h) then x :: l else h :: insert_by key x t
  end.

Definition sorted_by {A : Type} (key : A -> Q) (l : list A) : list A :=
  fold_right (insert_by key) [] l.

(** [max(xs)] of a non-empty sequence: the first of the greatest. *)
Definition max_from (first : Q) (rest : list Q) : Q :=
  fold_left (fun m x => if Qltb m x then x else m) rest first.

Definition max_or (default : Q) (xs : list Q) : Q :=
  match xs with
  | [] => default
  | x :: rest => max_from x rest
  end.

(** The first loop of [cluster_lines]: a word joins the first bucket whose
    [y] is within [y_tol] of its [top], or opens a bucket at the end. *)
Fixpoint place (y_tol : Q) (w : Word) (buckets : list Bucket) : list Bucket :=
  match buckets with
  | [] => [mkBucket (w_top w) [w]]
  | b :: rest =>
      if Qle_bool (Qabs (b_y b - w_top w)) y_tol
      then mkBucket (b_y b) (b_ws b ++ [w]) :: rest
      else b :: place y_tol w rest
  end.

Definition make_buckets (y_tol : Q) (words : list Word) : list Bucket :=
  fold_left (fun buckets w => place y_tol w buckets) words [].

(** The [parts] of one bucket: each word's text, then a [" "] when the next
    word starts more than [x_tol] after this one ends. *)
Fixpoint line_parts (x_tol : Q) (ws : list Word) : list str :=
  match ws with
  | [] => []
  | w :: rest =>
      w_text w
        :: match rest with
           | nxt :: _ => if Qltb x_tol (w_x0 nxt - w_x1 w) then [u " "] else []
           | [] => []
           end
        ++ line_parts x_tol rest
  end.

Definition bucket_words (b : Bucket) : list Word := sorted_by w_x0 (b_ws b).

Definition bucket_text (x_tol : Q) (ws : list Word) : str :=
  collapse_ws (strip (join (u " ") (line_parts x_tol ws))).

Definition word_size (w : Word) : Q :=
  match w_size w with Some s => s | None => 0 end.

(** One bucket's line, with the words it was built from; no line when the
    text is empty. *)
Definition bucket_line (x_tol : Q) (b : Bucket) : list (Line * list Word) :=
  let ws := bucket_words b in
  let text := bucket_text x_tol ws in
  match text with
  | [] => []
  | _ => [(mkLine (b_y b) text (max_or 0 (map word_size ws)), ws)]
  end.

Definition cluster_lines_words (words : list Word) (y_tol x_tol : Q)
  : list (Line * list Word) :=
  flat_map (bucket_line x_tol) (sorted_by b_y (make_buckets y_tol words)).

Definition cluster_lines (words : list Word) (y_tol x_tol : Q) : list Line :=
  map fst (cluster_lines_words words y_tol x_tol).

Fixpoint find_y (lines : list Line) (r : regex) : option Q :=
  match lines with
  | [] => None
  | li :: rest => if found r (line_text li) then Some (line_y li) else find_y rest r
  end.

(** [find_header_end_y]: the loop stops at the first line below 35% of the
    page. *)
Fixpoint banner_y_positions (lines : list Line) (page_height : Q) : list Q :=
  match lines with
  | [] => []
  | li :: rest =>
      if Qltb (page_height * (35 # 100)) (line_y li) then []
      else if is_header_banner (line_text li)
           then line_y li :: banner_y_positions rest page_height
           else banner_y_positions rest page_height
  end.

Definition find_header_end_y (lines : list Line) (page_height : Q) : Q :=
  match banner_y_positions lines page_height with
  | [] => page_height * (10 # 100)
  | y :: ys => max_from y ys + 5
  end.

(** ** Author parsing *)

Record Author : Type := mkAuthor {
  name : str;
  markers : list str;
  corresponding : bool
}.

Definition re_token : regex :=
  ralt [ rplus (RSet [CRange 65 90; CRange 97 122; CRange 0xC0 0x17E]);
         rplus (RSet [CRange 48 57]);
         RSet (map CLit SUPS);
         RSet (map CLit (u ",.*∗⁎")) ].

Definition extract_tokens_from_lines (lines : list Line) : list str :=
  flat_map (fun li => re_findall false re_token (line_text li)) lines.

(** The accumulator [cur]; [cur_markers] is a set, kept without repeats. *)
Record Cur : Type := mkCur {
  name_parts : list str;
  cur_markers : list str;
  cur_corresponding : bool
}.

Definition empty_cur : Cur := mkCur [] [] false.

Definition set_add (x : str) (s : list str) : list str :=
  if existsb (str_eqb x) s then s else s ++ [x].

(** Order of [str]: by code points, a prefix first. *)
Fixpoint str_leb (a b : str) : bool :=
  match a, b with
  | [], _ => true
  | _ :: _, [] => false
  | x :: a', y :: b' => if x <? y then true else if y <? x then false else str_leb a' b'
  end.

Fixpoint insert_str (x : str) (l : list str) : list str :=
  match l with
  | [] => [x]
  | h :: t => if str_leb x h then x :: l else h :: insert_str x t
  end.

Definition sorted_strs (l : list str) : list str := fold_right insert_str [] l.

Definition finalize_author (cur : Cur) : Author :=
  let name := strip (join (u " ") (name_parts cur)) in
  let name := fix_merged_text name in
  mkAuthor name (sorted_strs (cur_markers cur)) (cur_corresponding cur).

Definition keep_author (a : Author) : bool :=
  match name a with
  | [] => false
  | _ => negb (is_likely_affiliation (name a))
  end.

Definition is_nil {A : Type} (l : list A) : bool :=
  match l with [] => true | _ => false end.

(** One turn of the token loop of [parse_authors_with_markers]. *)
Definition token_step (state : list Author * Cur) (tok : str) : list Author * Cur :=
  let (authors, cur) := state in
  if str_eqb tok (u ",") then
    if is_nil (name_parts cur) then (authors, cur)
    else
      let a := finalize_author cur in
      ((if keep_author a then authors ++ [a] else authors), empty_cur)
  else if existsb (str_eqb tok) [u "*"; u "∗"; u "⁎"] then
    (authors, mkCur (name_parts cur) (cur_markers cur) true)
  else if re_fullmatch false rlower tok then
    (authors, mkCur (name_parts cur) (set_add tok (cur_markers cur)) (cur_corresponding cur))
  else if re_fullmatch false (rplus (RSet [CRange 48 57])) tok then
    (authors, mkCur (name_parts cur) (set_add tok (cur_markers cur)) (cur_corresponding cur))
  else if contains tok SUPS then
    (authors, mkCur (name_parts cur) (set_add (translate SUPS DIGITS tok) (cur_markers cur))
                    (cur_corresponding cur))
  else
    (authors, mkCur (name_parts cur ++ [tok]) (cur_markers cur) (cur_corresponding cur)).

Definition parse_author_tokens (tokens : list str) : list Author :=
  let (authors, cur) := fold_left token_step tokens ([], empty_cur) in
  if is_nil (name_parts cur) then authors
  else
    let a := finalize_author cur in
    if keep_author a then authors ++ [a] else authors.

Definition parse_authors_with_markers (author_lines : list Line) : list Author :=
  parse_author_tokens (extract_tokens_from_lines author_lines).

Definition re_comma : regex := rseq [RStar rspace; rchar 44; RStar rspace].
Definition re_star : regex := RSet (map CLit (u "*∗⁎")).

(** [(extracted_aff + ", " + p).strip(", ") if extracted_aff else p] *)
Definition add_aff (extracted_aff p : str) : str :=
  match extracted_aff with
  | [] => p
  | _ => strip_chars (u ", ") (extracted_aff ++ u ", " ++ p)
  end.

(** One turn of the loop over the comma-separated parts. *)
Definition part_step (state : list Author * str) (p : str) : list Author * str :=
  let (authors, extracted_aff) := state in
  let p := strip p in
  if is_nil p then state
  else if re_fullmatch false (rplus rdigit) p then state
  else if is_likely_affiliation p then (authors, add_aff extracted_aff p)
  else
    let corresponding := re_found false re_star p in
    let p := strip (re_sub false re_star (fun _ => []) p) in
    let p := fix_merged_text p in
    if is_likely_affiliation p then (authors, add_aff extracted_aff p)
    else if is_nil p then state
    else (authors ++ [mkAuthor p [] corresponding], extracted_aff).

(** [text[:m.start()].strip(" ,")] and [text[m.start():].strip()] *)
Definition cut_at (o : rmatch_obj) (text : str) : str * str :=
  (strip_chars (u " ,") (firstn (m_start o) text), strip (skipn (m_start o) text)).

Definition parse_authors_without_markers (author_text : str) : list Author * str :=
  let author_text := strip author_text in
  if is_nil author_text then ([], [])
  else
    let '(author_text, extracted_aff) :=
      match re_search true AFF_CUES author_text with
      | Some o => cut_at o author_text
      | None => (author_text, [])
      end in
    let '(author_text, extracted_aff) :=
      if is_nil extracted_aff then
        match re_search true AFF_CUES_MERGED author_text with
        | Some o => cut_at o author_text
        | None => (author_text, extracted_aff)
        end
      else (author_text, extracted_aff) in
    let author_text := fix_merged_text author_text in
    let parts := re_split false re_comma author_text in
    let (authors, extracted_aff) := fold_left part_step parts ([], extracted_aff) in
    (authors, fix_merged_text extracted_aff).

(** ** Affiliations *)

(** A [dict] from marker to text, in insertion order. *)
Definition Affiliations := list (str * str).

Fixpoint dict_get (k : str) (d : Affiliations) : str :=
  match d with
  | [] => []
  | (k', v) :: rest => if str_eqb k' k then v else dict_get k rest
  end.

Fixpoint dict_set (k v : str) (d : Affiliations) : Affiliations :=
  match d with
  | [] => [(k, v)]
  | (k', v') :: rest => if str_eqb k' k then (k, v) :: rest else (k', v') :: dict_set k v rest
  end.

Definition is_stop_line (t : str) : bool :=
  found RE_ARTINFO t || found RE_ABS_HDR t || found RE_STOP_ANY t.

(** The pattern [^\s*([a-z])\s+] followed by a group of any characters up
    to the end. *)
Definition re_key_space : regex :=
  rseq [ RBol; RStar rspace; RGroup 1 rlower; rplus rspace; RGroup 2 (RStar rdot); REol ].

(** The pattern [^\s*([a-z])] followed by a second group, up to the end,
    that reads [[A-Z]], one character, and then a starred space: as written
    in the source the star is on the space, not on the dot. *)
Definition re_key_glued : regex :=
  rseq [ RBol; RStar rspace; RGroup 1 rlower;
         RGroup 2 (rseq [rupper; rdot; RStar (rchar 32)]); REol ].

Fixpoint affiliations_loop (aff_lines : list Line) (affiliations : Affiliations)
         (last_key : option str) : Affiliations :=
  match aff_lines with
  | [] => affiliations
  | li :: rest =>
      let t := strip (line_text li) in
      if is_nil t then affiliations_loop rest affiliations last_key
      else if is_stop_line t then affiliations
      else
        match re_match false re_key_space t with
        | Some m =>
            let k := group 1 (m_caps m) in
            affiliations_loop rest
              (dict_set k (fix_merged_text (strip (group 2 (m_caps m)))) affiliations)
              (Some k)
        | None =>
            match re_match false re_key_glued t with
            | Some m2 =>
                let k := group 1 (m_caps m2) in
                affiliations_loop rest
                  (dict_set k (fix_merged_text (strip (group 2 (m_caps m2)))) affiliations)
                  (Some k)
            | None =>
                match last_key with
                | Some k =>
                    affiliations_loop rest
                      (dict_set k (strip (dict_get k affiliations ++ u " " ++ fix_merged_text t))
                                affiliations)
                      last_key
                | None => affiliations_loop rest affiliations last_key
                end
            end
        end
  end.

Definition parse_affiliations_with_markers (aff_lines : list Line) : Affiliations :=
  affiliations_loop aff_lines [] None.

Definition parse_affiliations_without_markers (aff_text : str) : Affiliations :=
  let aff_text := strip aff_text in
  if is_nil aff_text then []
  else if found RE_ARTINFO aff_text || found RE_ABS_HDR aff_text then []
  else
    let aff_text := strip (collapse_ws aff_text) in
    let aff_text := fix_merged_text aff_text in
    if is_nil aff_text then [] else [(u "all", aff_text)].

(** ** Front matter of page 1 *)

Record FrontMatter : Type := mkFrontMatter {
  title : str;
  authors : list Author;
  affiliations : Affiliations
}.

(** [find_y(lines, RE_ARTINFO) or find_y(lines, RE_ABS_HDR)], then 62% of the
    page when that is [None]; a [y] of zero is falsy for [or]. *)
Definition absinfo_y (H : Q) (lines : list Line) : Q :=
  let first :=
    match find_y lines RE_ARTINFO with
    | Some y => if Qeq_bool y 0 then find_y lines RE_ABS_HDR else Some y
    | None => find_y lines RE_ABS_HDR
    end in
  match first with
  | Some y => y
  | None => H * (62 # 100)
  end.

Definition Qmin_b (a b : Q) : Q := if Qltb b a then b else a.

Definition content_end_y (H : Q) (lines : list Line) : Q :=
  Qmin_b (absinfo_y H lines) (H * (45 # 100)).

(** [top] *)
Definition top_lines (H : Q) (lines : list Line) : list Line :=
  filter (fun li => Qle_bool (find_header_end_y lines H) (line_y li)
                    && Qltb (line_y li) (content_end_y H lines)
                    && negb (is_header_banner (line_text li)))
         lines.

Definition max_font (top : list Line) : Q := max_or 0 (map line_max_size top).

Definition title_candidates (top : list Line) : list Line :=
  sorted_by line_y
    (filter (fun li => Qle_bool (max_font top - (15 # 10)) (line_max_size li)
                       && negb (is_header_banner (line_text li)))
            top).

(** The loop that builds [title_lines]; [last_y] is [None] until a line is
    taken. *)
Fixpoint take_title (last_y : option Q) (cands : list Line) : list Line :=
  match cands with
  | [] => []
  | li :: rest =>
      if is_header_banner (line_text li) then take_title last_y rest
      else
        match last_y with
        | None => li :: take_title (Some (line_y li)) rest
        | Some y0 =>
            if Qle_bool (Qabs (line_y li - y0)) 20
            then li :: take_title (Some (line_y li)) rest
            else []
        end
  end.

Definition title_lines (top : list Line) : list Line :=
  take_title None (title_candidates top).

Definition title_bottom_y (H : Q) (lines : list Line) (tl : list Line) : Q :=
  match rev tl with
  | li :: _ => line_y li
  | [] => find_header_end_y lines H
  end.

Definition zone_lines (H : Q) (lines : list Line) (tl : list Line) : list Line :=
  filter (fun li => Qltb (title_bottom_y H lines tl + 5) (line_y li)
                    && Qltb (line_y li) (absinfo_y H lines)
                    && negb (is_header_banner (line_text li)))
         lines.

(** [^\s*[a-z]\s+[A-Z]] and [^\s*[a-z][A-Z]] *)
Definition re_marker_spaced : regex :=
  rseq [RBol; RStar rspace; rlower; rplus rspace; rupper].
Definition re_marker_glued : regex :=
  rseq [RBol; RStar rspace; rlower; rupper].

Definition is_marker_line (t : str) : bool :=
  is_some (re_match false re_marker_spaced t) || is_some (re_match false re_marker_glued t).

(** The scan for the split point: [(aff_start, has_markers)] at the first
    line that stops it, counting from [i]. *)
Fixpoint find_aff_start (zone : list Line) (i : nat) : option (nat * bool) :=
  match zone with
  | [] => None
  | li :: rest =>
      let t := strip (line_text li) in
      if is_stop_line t then Some (i, false)
      else if is_marker_line t then Some (i, true)
      else if found AFF_CUES t then Some (i, false)
      else find_aff_start rest (S i)
  end.

(** [(has_markers, author_lines, aff_lines)] *)
Definition split_zone (zone : list Line) : bool * list Line * list Line :=
  match find_aff_start zone 0 with
  | None => (false, firstn 2 zone, skipn 2 zone)
  | Some (aff_start, has_markers) =>
      (has_markers, firstn aff_start zone, skipn aff_start zone)
  end.

Definition join_lines (ls : list Line) : str :=
  strip (join (u " ") (map line_text ls)).

Definition empty_front_matter : FrontMatter := mkFrontMatter [] [] [].

(** The two resolver paths, chosen by [has_markers]. *)
Definition resolve (title : str) (has_markers : bool)
           (author_lines aff_lines : list Line) : FrontMatter :=
  let author_text := join_lines author_lines in
  if has_markers then
    mkFrontMatter title (parse_authors_with_markers author_lines)
                  (parse_affiliations_with_markers aff_lines)
  else
    let (authors, extra_aff) := parse_authors_without_markers author_text in
    let aff_text := join_lines aff_lines in
    let combined_aff :=
      if is_nil extra_aff && is_nil aff_text then []
      else strip (extra_aff ++ u " " ++ aff_text) in
    mkFrontMatter title authors (parse_affiliations_without_markers combined_aff).

(** [parse_front_matter_page1] from the page height and the words that the
    PDF layer extracted. *)
Definition parse_front_matter_page1 (H : Q) (words : list Word) : FrontMatter :=
  if is_nil words then empty_front_matter
  else
    let lines := cluster_lines words 3 3 in
    let top := top_lines H lines in
    if is_nil top then empty_front_matter
    else
      let tl := title_lines top in
      let title := fix_merged_text (join_lines tl) in
      let zone := zone_lines H lines tl in
      let '(has_markers, author_lines, aff_lines) := split_zone zone in
      resolve title has_markers author_lines aff_lines.

(** ** Keywords and abstract *)

Fixpoint find_index {A : Type} (p : A -> bool) (l : list A) (i : nat) : option nat :=
  match l with
  | [] => None
  | x :: rest => if p x then Some i else find_index p rest (S i)
  end.

(** [l[a:b]] *)
Definition slice {A : Type} (a b : nat) (l : list A) : list A :=
  firstn (b - a) (skipn a l).

(** [(?i)\bKeywords?\b\s*:?\s*] and [(?i)\bAbstract\b\s*:?\s*], each followed
    by a group of any characters up to the end. *)
Definition re_kw_line : regex :=
  rseq [ RWordB; rlit "Keyword"; ropt (rchar 115); RWordB; RStar rspace;
         ropt (rchar 58); RStar rspace; RGroup 1 (RStar rdot); REol ].
Definition re_abs_line : regex :=
  rseq [ RWordB; rlit "Abstract"; RWordB; RStar rspace;
         ropt (rchar 58); RStar rspace; RGroup 1 (RStar rdot); REol ].

(** [[m.group(1).strip()] if m and m.group(1) else []] *)
Definition header_rest (r : regex) (first_line : str) : list str :=
  match re_search true r first_line with
  | Some m => match group 1 (m_caps m) with [] => [] | g => [strip g] end
  | None => []
  end.

(** The stripped texts of the following lines, up to the first that
    [stop] matches. *)
Fixpoint span_texts (stop : str -> bool) (ls : list Line) : list str :=
  match ls with
  | [] => []
  | li :: rest =>
      let t := strip (line_text li) in
      if stop t then [] else t :: span_texts stop rest
  end.

Definition span_text (r : regex) (stop : str -> bool) (span : list Line) : str :=
  match span with
  | [] => []
  | first :: rest =>
      let parts := header_rest r (line_text first) ++ span_texts stop rest in
      match parts with
      | [] => []
      | _ => strip (collapse_ws (join (u " ") parts))
      end
  end.

Definition extract_kw_abs_from_lines (lines : list Line) : str * str :=
  let clean_lines := filter (fun li => negb (is_header_banner (line_text li))) lines in
  let kw_idx := find_index (fun li => found RE_KEYWORDS_HDR (line_text li)) clean_lines 0 in
  let abs_idx := find_index (fun li => found RE_ABS_HDR (line_text li)) clean_lines 0 in
  let intro_idx := find_index (fun li => found RE_INTRO (line_text li)) clean_lines 0 in
  let later (o : option nat) (i : nat) : option nat :=
    match o with Some j => if (i <? j)%nat then Some j else None | None => None end in
  let keywords_text :=
    match kw_idx with
    | None => []
    | Some k =>
        let end_kw :=
          match later abs_idx k, later intro_idx k with
          | Some a, _ => a
          | None, Some i => i
          | None, None => length clean_lines
          end in
        span_text re_kw_line (fun t => found RE_ABS_HDR t || found RE_INTRO t)
                  (slice k end_kw clean_lines)
    end in
  let abstract_text :=
    match abs_idx with
    | None => []
    | Some a =>
        let end_abs :=
          match later intro_idx a with
          | Some i => i
          | None => length clean_lines
          end in
        span_text re_abs_line (found RE_INTRO) (slice a end_abs clean_lines)
    end in
  (keywords_text, abstract_text).

(** ** Flattening *)

Definition is_numeric_marker (m : str) : bool := re_fullmatch false (rplus rdigit) m.

(** One turn of the loop of [flatten_authors]. *)
Definition flatten_step (parts : list str) (a : Author) : list str :=
  let name := strip (name a) in
  if is_nil name then parts
  else
    let numeric := concat (filter is_numeric_marker (markers a)) in
    let name := if is_nil numeric then name else name ++ translate DIGITS SUPS numeric in
    let name := if corresponding a then name ++ u " ∗" else name in
    parts ++ [name].

Definition flatten_authors (authors : list Author) : str :=
  match authors with
  | [] => []
  | _ => strip (join (u ", ") (fold_left flatten_step authors []))
  end.

(** [flatten_affiliations] on a map from marker to text: the text under
    "all" when there is one, else the entries with a non-blank text, by
    ascending key, each as key, space, text. *)
Definition dict_has (k : str) (d : Affiliations) : bool :=
  existsb (fun kv => str_eqb (fst kv) k) d.

Definition flatten_affiliations (affiliations : Affiliations) : str :=
  match affiliations with
  | [] => []
  | _ =>
      if dict_has (u "all") affiliations
      then strip (dict_get (u "all") affiliations)
      else
        let items :=
          flat_map (fun k => let v := dict_get k affiliations in
                             if is_nil (strip v) then [] else [k ++ u " " ++ strip v])
                   (sorted_strs (map fst affiliations)) in
        strip (join (u " ") items)
  end.

(** ** The work queue and the record of a page *)

(** [s.split(sep)] for a separator of one character; [cur] is the field
    being read. *)
Fixpoint split_on_aux (sep : Z) (cur : str) (s : str) : list str :=
  match s with
  | [] => [cur]
  | c :: r =>
      if c =? sep then cur :: split_on_aux sep [] r
      else split_on_aux sep (cur ++ [c]) r
  end.

Definition split_on (sep : Z) (s : str) : list str := split_on_aux sep [] s.

(** [s.endswith(suffix)] *)
Definition ends_with (suffix s : str) : bool := starts_with (rev suffix) (rev s).

(** One turn of the loop of [load_timeout_filenames] over the lines of the
    log; the state is [(files, seen)]. *)
Definition timeout_step (state : list str * list str) (line : str)
  : list str * list str :=
  let (files, seen) := state in
  let line := strip line in
  if is_nil line then state
  else if negb (contains (u "TIMEOUT>90s") line) then state
  else
    let parts := split_on 9 line in
    if (length parts <? 2)%nat then state
    else
      let fn := strip (nth 1 parts []) in
      if ends_with (u ".pdf") (lower fn) && negb (existsb (str_eqb fn) seen)
      then (files ++ [fn], set_add fn seen)
      else state.

(** [load_timeout_filenames]: [None] stands for the log that does not
    exist, where the source raises [FileNotFoundError]. *)
Definition load_timeout_filenames (error_log : option (list str)) : option (list str) :=
  match error_log with
  | None => None
  | Some lines => Some (fst (fold_left timeout_step lines ([], [])))
  end.

(** The record that [main] writes for one file, from the page height and
    the words of the first page. *)
Record OutRecord : Type := mkOutRecord {
  r_filename : str;
  r_title : str;
  r_authors : str;
  r_affiliations : str;
  r_keywords : str;
  r_abstract : str
}.

Definition page_record (fn : str) (H : Q) (words : list Word) : OutRecord :=
  let fm := parse_front_matter_page1 H words in
  let lines := if is_nil words then [] else cluster_lines words 3 3 in
  let (keywords_text, abstract_text) := extract_kw_abs_from_lines lines in
  mkOutRecord fn (title fm) (flatten_authors (authors fm))
              (flatten_affiliations (affiliations fm)) keywords_text abstract_text.

(** ** Statements taken from the specification, for comparison *)

(** A line that carries only text, for the examples. *)
Definition text_line (s : string) : Line := mkLine 0 (u s) 0.

(** The token sequence of the marker-path example and a line that
    tokenizes to it. *)
Definition example_tokens : list str :=
  map u [ "Jane"; "Doe"; ","; "1"; "John"; "Smith"; ","; "2"; "∗" ]%string.

Definition example_author_lines : list Line :=
  [text_line "Jane Doe , 1 John Smith , 2 ∗"].

Definition example_author_text : str :=
  u "Jane Doe, John Smith, Department of Computer Science, MIT, USA".

(** ** Notions used in the statements *)

Definition no_space (w : str) : Prop :=
  forallb (fun c => negb (is_space c)) w = true.

(** In the words of the specification: a digit marker is a non-empty
    string of decimal digits. *)
Definition all_digits (m : str) : bool := negb (is_nil m) && forallb is_decimal m.

(** The author with the digit markers only. *)
Definition digits_only (a : Author) : Author :=
  mkAuthor (name a) (filter all_digits (markers a)) (corresponding a).

(** The display form of one author: nothing for a blank name, else the
    name, the digit markers as superscripts, and the star of a
    corresponding author. *)
Definition render (a : Author) : list str :=
  let n := strip (name a) in
  if is_nil n then []
  else [ n ++ translate DIGITS SUPS (concat (filter all_digits (markers a)))
           ++ (if corresponding a then u " ∗" else []) ].

Definition at_end (st : mstate) : option mstate :=
  match after st with [] => Some st | _ => None end.

(** A line that ends the author block: a stop anchor, a marker pattern or
    an affiliation cue. *)
Definition is_split_line (li : Line) : bool :=
  let t := strip (line_text li) in
  is_stop_line t || is_marker_line t || found AFF_CUES t.

Definition example_zone : list Line :=
  [ text_line "Jane Doe"; text_line "Bob Stone"; text_line "12 Elm Road" ].





(** In the words of the specification: the texts of the words, with a space
    between two neighbours exactly when the gap exceeds [x_tol]. *)
Fixpoint spec_line_text (x_tol : Q) (ws : list Word) : str :=
  match ws with
  | [] => []
  | w :: rest =>
      w_text w
        ++ match rest with
           | nxt :: _ => if Qltb x_tol (w_x0 nxt - w_x1 w) then u " " else []
           | [] => []
           end
        ++ spec_line_text x_tol rest
  end.

Definition word_ab : Word := mkWord (u "ab") 0 10 0 (Some 10%Q).
Definition word_cd : Word := mkWord (u "cd") 11 20 0 (Some 10%Q).

Definition all_ws (s : str) : bool := forallb is_space s.

(** Stripping and collapsing, the two steps applied to the joined parts. *)
Definition norm (s : str) : str := collapse_ws (strip s).

(** Words as the extraction layer delivers them: not empty and without
    whitespace. *)
Definition clean_text (t : str) : Prop := t <> [] /\ no_space t.





Definition y_le (a b : Line) : Prop := (line_y a <= line_y b)%Q.

(** Each line of the list is within 20 of the one before it; [last] is the
    position before the first. *)
Fixpoint within20 (last : option Q) (l : list Line) : Prop :=
  match l with
  | [] => True
  | li :: rest =>
      match last with
      | None => True
      | Some y0 => (Qabs (line_y li - y0) <= 20)%Q
      end /\ within20 (Some (line_y li)) rest
  end.

(** The position of the last line taken, [last] when none was. *)
Definition last_y (last : option Q) (taken : list Line) : option Q :=
  fold_left (fun _ li => Some (line_y li)) taken last.

(** The line at which the loop broke off, if any, is more than 20 away. *)
Definition gap_after (last : option Q) (rest : list Line) : Prop :=
  match rest with
  | [] => True
  | li :: _ =>
      match last with
      | Some y0 => (20 < Qabs (line_y li - y0))%Q
      | None => False
      end
  end.

(** A small page, 1000 high: a title, an author line with the marker a,
    and an affiliation line whose key is glued to its text. *)
Definition page_glued_key : list Word :=
  [ mkWord (u "Title") 100 160 200 (Some 20%Q);
    mkWord (u "Jane") 100 130 250 (Some 10%Q);
    mkWord (u "Doe") 135 160 250 (Some 10%Q);
    mkWord (u "a") 162 166 250 (Some 7%Q);
    mkWord (u "aDepartment") 100 180 270 (Some 9%Q);
    mkWord (u "of") 185 195 270 (Some 9%Q);
    mkWord (u "Physics") 200 240 270 (Some 9%Q) ].

(** The same page with three plain lines under the title. *)
Definition page_no_split : list Word :=
  [ mkWord (u "Title") 100 160 200 (Some 20%Q);
    mkWord (u "Jane") 100 130 250 (Some 10%Q);
    mkWord (u "Doe") 135 160 250 (Some 10%Q);
    mkWord (u "Bob") 100 130 270 (Some 10%Q);
    mkWord (u "Stone") 135 160 270 (Some 10%Q);
    mkWord (u "Elm") 100 130 290 (Some 9%Q);
    mkWord (u "Road") 135 160 290 (Some 9%Q) ].

(** Lines, and lines with their words, in ascending [y]; buckets likewise;
    words from left to right. *)
Definition by_y (a b : Line * list Word) : Prop := (line_y (fst a) <= line_y (fst b))%Q.
Definition bucket_le (a b : Bucket) : Prop := (b_y a <= b_y b)%Q.
Definition x0_le (a b : Word) : Prop := (w_x0 a <= w_x0 b)%Q.
Definition key_le {A : Type} (key : A -> Q) (a b : A) : Prop := (key a <= key b)%Q.

(** Two words of one row, the right one first. *)
Definition row_word_1 : Word := mkWord (u "Deep") 50 80 100 (Some 12%Q).
Definition row_word_2 : Word := mkWord (u "nets") 10 40 101 (Some 12%Q).

(** What it means for a pattern to match between two positions, read off
    the pattern alone: the matcher is checked against it. *)
Fixpoint matches (ic : bool) (r : regex) (st st' : mstate) : Prop :=
  match r with
  | REps => st' = st
  | RSet items =>
      exists c rest,
        after st = c :: rest /\
        existsb (fun it => cset_matches ic it c) items = true /\
        st' = MState (c :: before st) rest (caps st)
  | RSeq a b => exists m, matches ic a st m /\ matches ic b m st'
  | RAlt a b => matches ic a st st' \/ matches ic b st st'
  | RStar a => clos_refl_trans_1n mstate (matches ic a) st st'
  | RGroup n a =>
      exists m, matches ic a st m /\
                st' = MState (before m) (after m) ((n, consumed st m) :: caps m)
  | RBol => before st = [] /\ st' = st
  | REol => (after st = [] \/ after st = [10]) /\ st' = st
  | RWordB => at_word_boundary st = true /\ st' = st
  end.

(** The second position is the first one moved forward over [t]. *)
Definition moved (t : str) (st st' : mstate) : Prop :=
  after st = t ++ after st' /\ before st' = rev t ++ before st.

Fixpoint group_free (r : regex) : bool :=
  match r with
  | RSeq a b | RAlt a b => group_free a && group_free b
  | RStar a => group_free a
  | RGroup _ _ => false
  | _ => true
  end.

(** The text of a piece of a scan. *)
Definition piece_text (x : str + rmatch_obj) : str :=
  match x with inl t => t | inr o => m_text o end.

(** The classes of the tokenizer. *)
Definition is_letter (c : Z) : bool :=
  in_range 65 90 c || in_range 97 122 c || in_range 0xC0 0x17E c.
Definition is_ascii_digit (c : Z) : bool := in_range 48 57 c.

(** A token is a run of letters, a run of ASCII digits, one superscript
    digit, or one of the punctuation signs. *)
Definition token_ok (t : str) : Prop :=
  t <> [] /\
  (forallb is_letter t = true \/
   forallb is_ascii_digit t = true \/
   (exists c, t = [c] /\ In c SUPS) \/
   (exists c, t = [c] /\ In c (u ",.*∗⁎"))).

(** A marker as the author parser records it: one lower-case ASCII letter
    or a run of ASCII digits. *)
Definition marker_ok (m : str) : Prop :=
  (exists c, m = [c] /\ is_ascii_lower c = true) \/
  (m <> [] /\ forallb is_ascii_digit m = true).

(** An author that the parsers may return: a name that is not empty and
    that the affiliation test lets through. *)
Definition author_ok (a : Author) : Prop :=
  name a <> [] /\ is_likely_affiliation (name a) = false.

Definition str_le (a b : str) : Prop := str_leb a b = true.

(** What holds of every author of the marker path. *)
Definition marked_author_ok (a : Author) : Prop :=
  author_ok a /\ Forall marker_ok (markers a) /\
  NoDup (markers a) /\ Sorted str_le (markers a).

(** A key of the marker path: one lower-case ASCII letter. *)
Definition key_ok (k : str) : Prop := exists c, k = [c] /\ is_ascii_lower c = true.

(** A text whose whitespace is made of single spaces; [b] tells that the
    character before was whitespace. *)
Fixpoint spaced (b : bool) (s : str) : Prop :=
  match s with
  | [] => True
  | c :: r =>
      if is_space c then b = false /\ c = 32 /\ spaced true r
      else spaced false r
  end.

(** The lines that are no banner, as the keyword and abstract extractor
    reads them. *)
Definition clean_lines (lines : list Line) : list Line :=
  filter (fun li => negb (is_header_banner (line_text li))) lines.

(** The file name that a line of the log stands for, if any: the second
    tab-separated field of a line that holds the time-out mark, when it
    ends in .pdf in any case. *)
Definition timeout_name (line : str) : option str :=
  let line := strip line in
  if is_nil line then None
  else if negb (contains (u "TIMEOUT>90s") line) then None
  else
    match split_on 9 line with
    | _ :: p1 :: _ =>
        if ends_with (u ".pdf") (lower (strip p1)) then Some (strip p1) else None
    | _ => None
    end.

Definition example_log : list str :=
  [ u "2024-01-01T10:00:00	a.pdf	90.01s	TIMEOUT>90s";
    u "2024-01-01T10:02:00	b.pdf	3.10s	ValueError('x')";
    u "";
    u "2024-01-01T10:05:00	a.pdf	90.02s	TIMEOUT>90s";
    u "2024-01-01T10:07:00	C.PDF	90.00s	TIMEOUT>90s" ].

(** A word that is only a blank. *)
Definition blank_word : Word := mkWord (u " ") 10 12 100 (Some 10%Q).

(** A zone whose second line carries an affiliation cue. *)
Definition example_zone_cue : list Line :=
  [ text_line "Jane Doe, Bob Stone"; text_line "Department of Physics";
    text_line "12 Elm Road" ].

(** Lines of a page 1000 high: a banner, a title, an author line. *)
Definition example_page_lines : list Line :=
  [ mkLine 40 (u "Contents lists available at ScienceDirect") 8;
    mkLine 200 (u "Title") 20;
    mkLine 250 (u "Jane Doe") 10 ].

(** A line that carries one of the two anchors of the metadata region. *)
Definition is_anchor_line (li : Line) : bool :=
  found RE_ARTINFO (line_text li) || found RE_ABS_HDR (line_text li).


(** * Properties *)

Lemma str_eqb_eq a b : str_eqb a b = true <-> a = b.
Proof.
  unfold str_eqb. destruct (list_eq_dec Z.eq_dec a b); split; congruence.
Qed.

(** ** Marker-based author resolver *)


(** What the resolver returns on the example: the second name is dropped
    by the affiliation filter, whose collapsed lower-case text holds the
    letters of a cue. *)
Lemma example_tokens_result :
  parse_author_tokens example_tokens = [mkAuthor (u "Jane Doe") [] false].
Proof. vm_compute. reflexivity. Qed.

(** With each marker before its comma and a name the filter lets through,
    markers and the flag go to the authors they follow. *)
Lemma markers_before_comma :
  parse_author_tokens
    (map u [ "Jane"; "Doe"; "1"; ","; "John"; "Stone"; "2"; "∗" ]%string)
  = [ mkAuthor (u "Jane Doe") [u "1"] false;
      mkAuthor (u "John Stone") [u "2"] true ].
Proof. vm_compute. reflexivity. Qed.



(** ** Unmarked author path *)

(** C7 on the code: the text of the example gives one author only, and
    John Smith is moved to the affiliation text. *)
Theorem parse_authors_without_markers_example :
  parse_authors_without_markers example_author_text
  = ( [mkAuthor (u "Jane Doe") [] false],
      u "Department of Computer Science, MIT, USA, John Smith" ).
Proof. vm_compute. reflexivity. Qed.

(** The cause: the keyword test runs on the collapsed lower-case text
    without word boundaries, where the surname holds the letters m, i, t;
    the cue pattern with word boundaries does not fire. *)
Lemma smith_is_likely_affiliation :
  is_likely_affiliation (u "John Smith") = true /\
  contains (u "mit") (lower (remove_ws (u "John Smith"))) = true /\
  found AFF_CUES (u "John Smith") = false /\
  found AFF_CUES_MERGED (u "John Smith") = false.
Proof. vm_compute. repeat split. Qed.

(** ** Marker-based affiliations *)

(** C5 on the code: a line that opens with a lower-case key glued to a
    capital gives no entry, although the zone locator takes the same line
    for a marker line. *)
Theorem parse_affiliations_glued_key :
  parse_affiliations_with_markers [text_line "aDepartment of Physics"] = [] /\
  is_marker_line (u "aDepartment of Physics") = true /\
  is_stop_line (u "aDepartment of Physics") = false.
Proof. vm_compute. repeat split. Qed.

(** The glued pattern only takes a key, a capital and one more character;
    with a space after the key the entry is opened. *)
Lemma parse_affiliations_keys :
  parse_affiliations_with_markers
    [text_line "a Department of Physics"; text_line "bMx"; text_line "Elm Road"]
  = [ (u "a", u "Department of Physics"); (u "b", u "Mx Elm Road") ].
Proof. vm_compute. reflexivity. Qed.

(** On a whole page: the locator sees the glued key and takes the marker
    path, the author keeps the marker a, and the affiliation it points to
    is lost. *)
Lemma front_matter_glued_key_lost :
  parse_front_matter_page1 1000 page_glued_key
  = mkFrontMatter (u "Title") [mkAuthor (u "Jane Doe") [u "a"] false] [].
Proof. vm_compute. reflexivity. Qed.

(** ** Keywords and abstract *)

(** C8: on the three lines of the example the keywords are
    "machine learning, NLP", the abstract is "We propose...", and the
    abstract does not hold the header word; the positions and sizes of the
    lines play no part. *)
Theorem extract_kw_abs_example (y1 y2 y3 s1 s2 s3 : Q) :
  let r := extract_kw_abs_from_lines
             [ mkLine y1 (u "Keywords: machine learning, NLP") s1;
               mkLine y2 (u "Abstract") s2;
               mkLine y3 (u "We propose...") s3 ] in
  fst r = u "machine learning, NLP" /\
  snd r = u "We propose..." /\
  contains (u "Abstract") (snd r) = false.
Proof. vm_compute. repeat split. Qed.

(** ** Merged-text repair *)

Lemma lstrip_no_space (w : str) : no_space w -> lstrip_by is_space w = w.
Proof.
  unfold no_space. destruct w as [|c w]; simpl; intros H; [ reflexivity | ].
  apply andb_prop in H. destruct H as [Hc _].
  apply negb_true_iff in Hc. rewrite Hc. reflexivity.
Qed.

Lemma rstrip_no_space (w : str) : no_space w -> rstrip_by is_space w = w.
Proof.
  unfold no_space. induction w as [|c w IH]; simpl; intros H; [ reflexivity | ].
  apply andb_prop in H. destruct H as [Hc Hw].
  apply negb_true_iff in Hc. rewrite (IH Hw), Hc.
  destruct w; reflexivity.
Qed.

Lemma strip_no_space (w : str) : no_space w -> strip w = w.
Proof.
  intros H. unfold strip, strip_by.
  rewrite (lstrip_no_space H). apply rstrip_no_space, H.
Qed.

Lemma split_ws_aux_no_space (w cur : str) :
  no_space w ->
  split_ws_aux cur w = match cur ++ w with [] => [] | s => [s] end.
Proof.
  unfold no_space. revert cur. induction w as [|c w IH]; simpl; intros cur H.
  - rewrite app_nil_r. destruct cur; reflexivity.
  - apply andb_prop in H. destruct H as [Hc Hw].
    apply negb_true_iff in Hc. rewrite Hc, (IH _ Hw), <- app_assoc. reflexivity.
Qed.

Lemma split_ws_single_word (w : str) :
  no_space w -> w <> [] -> split_ws w = [w].
Proof.
  intros H Hne. unfold split_ws. rewrite (split_ws_aux_no_space [] H). simpl.
  destruct w; [ contradiction | reflexivity ].
Qed.

(** C6, as stated, fails: the fused word JaneDoe comes back as it is, with
    no space in it. *)
Lemma fix_merged_text_JaneDoe_unchanged :
  fix_merged_text (u "JaneDoe") = u "JaneDoe" /\
  fix_merged_text (u "JaneDoe") <> u "Jane Doe" /\
  contains (u " ") (fix_merged_text (u "JaneDoe")) = false.
Proof.
  vm_compute. repeat split. intro H. discriminate H.
Qed.

(** C6 (amended): a single word of at most 10 characters is returned
    unchanged, which is the case of JaneDoe; a single word of 11 to 15
    characters gets the lower-case/capital substitution that puts a space
    before each capital that follows a lower-case letter. *)
Theorem fix_merged_text_single_word (w : str) :
  no_space w ->
  ((length w <= 10)%nat -> fix_merged_text w = w) /\
  ((10 < length w <= 15)%nat ->
   fix_merged_text w = re_sub false re_lower_upper repl_1_sp_2 w).
Proof.
  intros H. destruct w as [|c w]; [ split; intros; [ reflexivity | simpl in *; lia ] | ].
  assert (Hne : c :: w <> []) by discriminate.
  unfold fix_merged_text.
  rewrite (strip_no_space H), (split_ws_single_word H Hne).
  change (length [c :: w]) with 1%nat.
  change (3 <=? 1)%nat with false. change (1 <=? 2)%nat with true.
  change (1 =? 1)%nat with true. rewrite andb_true_r, andb_true_l.
  split; intros Hlen.
  - destruct (Nat.ltb_spec 15 (length (c :: w))); [ lia | ].
    destruct (Nat.ltb_spec 10 (length (c :: w))); [ lia | reflexivity ].
  - destruct (Nat.ltb_spec 15 (length (c :: w))); [ lia | ].
    destruct (Nat.ltb_spec 10 (length (c :: w))); [ reflexivity | lia ].
Qed.

Lemma fix_merged_text_single_word_witness :
  no_space (u "JaneDoe") /\ (length (u "JaneDoe") <= 10)%nat /\
  fix_merged_text (u "JaneDoe") = u "JaneDoe".
Proof.
  assert (H : no_space (u "JaneDoe")) by reflexivity.
  assert (L : (length (u "JaneDoe") <= 10)%nat) by (vm_compute; lia).
  split; [ exact H | split; [ exact L | ] ].
  exact (proj1 (fix_merged_text_single_word H) L).
Defined.

(** Above the threshold the space is put in. *)
Lemma fix_merged_text_long_word :
  fix_merged_text (u "JonathanDoeson") = u "Jonathan Doeson".
Proof. vm_compute. reflexivity. Qed.

(** ** Flattening of authors *)

Lemma star_digits_to_end (n : nat) :
  forall bef aft cs,
    (length aft <= n)%nat ->
    star_loop (rmatch false rdigit) at_end n (MState bef aft cs)
    = if forallb is_decimal aft then Some (MState (rev aft ++ bef) [] cs) else None.
Proof.
  induction n as [|n IH]; intros bef aft cs Hlen.
  - destruct aft; [ reflexivity | simpl in Hlen; lia ].
  - destruct aft as [|c rest]; [ reflexivity | ].
    simpl in Hlen. cbn [star_loop rmatch rdigit after before caps existsb cset_matches forallb].
    rewrite orb_false_r.
    destruct (is_decimal c); cbn [andb]; [ | reflexivity ].
    replace (length rest <? length (c :: rest))%nat with true
      by (symmetry; apply Nat.ltb_lt; simpl; lia).
    rewrite IH by lia.
    destruct (forallb is_decimal rest); [ | reflexivity ].
    cbn [rev]. rewrite <- app_assoc. reflexivity.
Qed.

Lemma is_numeric_marker_all_digits (m : str) : is_numeric_marker m = all_digits m.
Proof.
  unfold is_numeric_marker, re_fullmatch, all_digits, rplus.
  destruct m as [|c rest]; [ reflexivity | ].
  cbn [rmatch rdigit after before caps existsb cset_matches forallb is_nil negb andb].
  rewrite orb_false_r.
  destruct (is_decimal c); [ | reflexivity ].
  change (fun st : mstate => match after st with [] => Some st | _ :: _ => None end)
    with at_end.
  rewrite star_digits_to_end by (simpl; lia).
  destruct (forallb is_decimal rest); reflexivity.
Qed.

Lemma lower_letter_not_decimal (c : Z) : is_ascii_lower c && is_decimal c = false.
Proof.
  destruct (is_ascii_lower c) eqn:E; [ | reflexivity ].
  unfold is_ascii_lower, in_range in E. apply andb_prop in E.
  destruct E as [E1 E2]. apply Z.leb_le in E1. apply Z.leb_le in E2.
  cbn [andb]. unfold is_decimal, nd_zeros, existsb, in_range.
  repeat match goal with
         | |- orb _ _ = false => apply orb_false_intro
         end;
    try reflexivity;
    apply andb_false_iff;
    first [ left; apply Z.leb_gt; lia | right; apply Z.leb_gt; lia ].
Qed.

Lemma flatten_step_render (parts : list str) (a : Author) :
  flatten_step parts a = parts ++ render a.
Proof.
  unfold flatten_step, render.
  destruct (is_nil (strip (name a))); [ symmetry; apply app_nil_r | ].
  rewrite (filter_ext _ _ is_numeric_marker_all_digits).
  f_equal. f_equal.
  destruct (concat (filter all_digits (markers a))) as [|d ds];
    destruct (corresponding a); cbn [is_nil];
    try (change (translate DIGITS SUPS []) with (@nil Z));
    rewrite ?app_nil_r, <- ?app_assoc; reflexivity.
Qed.

Lemma flatten_loop_render (authors : list Author) :
  forall parts,
    fold_left flatten_step authors parts = parts ++ flat_map render authors.
Proof.
  induction authors as [|a rest IH]; intros parts; simpl.
  - symmetry. apply app_nil_r.
  - rewrite IH, flatten_step_render, <- app_assoc. reflexivity.
Qed.

Lemma filter_idem {A : Type} (f : A -> bool) (l : list A) :
  filter f (filter f l) = filter f l.
Proof.
  induction l as [|x l IH]; simpl; [ reflexivity | ].
  destruct (f x) eqn:E; simpl; [ rewrite E, IH | ]; auto.
Qed.

Lemma render_digits_only (a : Author) : render (digits_only a) = render a.
Proof.
  unfold render, digits_only. cbn [name markers corresponding].
  rewrite filter_idem. reflexivity.
Qed.

Lemma flatten_authors_render (authors : list Author) :
  flatten_authors authors = strip (join (u ", ") (flat_map render authors)).
Proof.
  unfold flatten_authors. destruct authors as [|a rest]; [ reflexivity | ].
  rewrite flatten_loop_render. reflexivity.
Qed.

(** C10: the flattened string is made of the display forms of the authors
    with a non-blank name, joined by a comma and a space; a display form
    holds the digit markers only, as superscripts after the name, so the
    result is the same when every other marker is removed; and a single
    lower-case letter is never a digit marker. *)
Theorem flatten_authors_digit_markers_only (authors : list Author) :
  flatten_authors authors = strip (join (u ", ") (flat_map render authors)) /\
  flatten_authors authors = flatten_authors (map digits_only authors) /\
  (forall c, is_ascii_lower c && is_numeric_marker [c] = false) /\
  translate DIGITS SUPS (u "0123456789") = u "⁰¹²³⁴⁵⁶⁷⁸⁹".
Proof.
  split; [ apply flatten_authors_render | ].
  split.
  - rewrite !flatten_authors_render. f_equal. f_equal.
    induction authors as [|a rest IH]; simpl; [ reflexivity | ].
    rewrite render_digits_only, IH. reflexivity.
  - split; [ | vm_compute; reflexivity ].
    intros c. rewrite is_numeric_marker_all_digits.
    unfold all_digits. cbn [is_nil negb forallb andb].
    rewrite andb_true_r. apply lower_letter_not_decimal.
Qed.

(** A letter marker leaves no trace, a digit marker becomes a superscript. *)
Lemma flatten_authors_example :
  flatten_authors [ mkAuthor (u "Jane Doe") [u "1"; u "a"] true;
                    mkAuthor (u "Bob Stone") [u "a"] false ]
  = u "Jane Doe¹ ∗, Bob Stone".
Proof. vm_compute. reflexivity. Qed.

(** ** The split between authors and affiliations *)

Lemma find_aff_start_none (zone : list Line) :
  forall i,
    Forall (fun li => is_split_line li = false) zone ->
    find_aff_start zone i = None.
Proof.
  induction zone as [|li rest IH]; intros i Hall; [ reflexivity | ].
  inversion Hall as [|? ? Hli Hrest]; subst.
  unfold is_split_line in Hli.
  apply orb_false_elim in Hli. destruct Hli as [Hli Hcue].
  apply orb_false_elim in Hli. destruct Hli as [Hstop Hmark].
  cbn [find_aff_start]. rewrite Hstop, Hmark, Hcue. apply IH, Hrest.
Qed.

Lemma find_aff_start_some (zone : list Line) :
  forall i k m,
    find_aff_start zone i = Some (k, m) ->
    exists li, nth_error zone (k - i) = Some li /\ is_split_line li = true /\
               (i <= k)%nat /\
               Forall (fun li => is_split_line li = false) (firstn (k - i) zone).
Proof.
  induction zone as [|li rest IH]; intros i k m Hf; [ discriminate Hf | ].
  cbn [find_aff_start] in Hf.
  destruct (is_split_line li) eqn:Hs.
  - assert (k = i) as ->.
    { unfold is_split_line in Hs.
      destruct (is_stop_line (strip (line_text li))); [ congruence | ].
      destruct (is_marker_line (strip (line_text li))); [ congruence | ].
      cbn [orb] in Hs. rewrite Hs in Hf. congruence. }
    exists li. rewrite Nat.sub_diag. repeat split; auto.
  - unfold is_split_line in Hs.
    apply orb_false_elim in Hs. destruct Hs as [Hs Hcue].
    apply orb_false_elim in Hs. destruct Hs as [Hstop Hmark].
    rewrite Hstop, Hmark, Hcue in Hf.
    destruct (IH _ _ _ Hf) as (li' & Hn & Hs' & Hle & Hall).
    exists li'. replace (k - i)%nat with (S (k - S i)) by lia.
    repeat split; auto; [ lia | ].
    cbn [firstn]. constructor; [ | exact Hall ].
    unfold is_split_line. rewrite Hstop, Hmark, Hcue. reflexivity.
Qed.

(** C9: when no line of the zone is a split point, the author block is the
    first two lines of the zone, the affiliation block is the rest, the
    unmarked path is taken, and the front matter is the one resolved from
    these blocks: a value is returned, there is no failure to report. *)
Theorem split_zone_default (zone : list Line) :
  Forall (fun li => is_split_line li = false) zone ->
  split_zone zone = (false, firstn 2 zone, skipn 2 zone) /\
  forall title,
    (let '(has_markers, author_lines, aff_lines) := split_zone zone in
     resolve title has_markers author_lines aff_lines)
    = resolve title false (firstn 2 zone) (skipn 2 zone).
Proof.
  intros Hall. unfold split_zone.
  rewrite (find_aff_start_none 0 Hall). split; reflexivity.
Qed.

Lemma split_zone_default_witness :
  Forall (fun li => is_split_line li = false) example_zone /\
  split_zone example_zone
  = ( false,
      [text_line "Jane Doe"; text_line "Bob Stone"],
      [text_line "12 Elm Road"] ).
Proof.
  assert (H : Forall (fun li => is_split_line li = false) example_zone)
    by (repeat constructor).
  split; [ exact H | ].
  exact (proj1 (split_zone_default H)).
Defined.

(** The same on the whole function: with words on the page, a title pool
    that is not empty and no split point in the zone, the front matter is
    the one of the unmarked path on the first two lines of the zone and the
    rest. *)
Lemma front_matter_default_split (H : Q) (words : list Word) :
  let lines := cluster_lines words 3 3 in
  let top := top_lines H lines in
  let zone := zone_lines H lines (title_lines top) in
  is_nil words = false ->
  is_nil top = false ->
  Forall (fun li => is_split_line li = false) zone ->
  parse_front_matter_page1 H words
  = resolve (fix_merged_text (join_lines (title_lines top))) false
            (firstn 2 zone) (skipn 2 zone).
Proof.
  intros lines top zone Hw Ht Hall.
  unfold parse_front_matter_page1. rewrite Hw. fold lines. fold top.
  rewrite Ht. cbv zeta. fold top. fold zone.
  unfold split_zone. rewrite (find_aff_start_none 0 Hall). reflexivity.
Qed.

Lemma front_matter_no_split_example :
  parse_front_matter_page1 1000 page_no_split
  = mkFrontMatter (u "Title")
                  [mkAuthor (u "Jane Doe Bob Stone") [] false]
                  [(u "all", u "Elm Road")].
Proof. vm_compute. reflexivity. Qed.

(** When a split point exists, the blocks are cut at the first one. *)
Lemma split_zone_at_first (zone : list Line) (k : nat) (m : bool) :
  find_aff_start zone 0 = Some (k, m) ->
  split_zone zone = (m, firstn k zone, skipn k zone) /\
  Forall (fun li => is_split_line li = false) (firstn k zone) /\
  exists li, nth_error zone k = Some li /\ is_split_line li = true.
Proof.
  intros Hf. unfold split_zone. rewrite Hf.
  destruct (find_aff_start_some _ _ Hf) as (li & Hn & Hs & _ & Hall).
  rewrite Nat.sub_0_r in Hn, Hall.
  split; [ reflexivity | split; [ exact Hall | exists li; auto ] ].
Qed.

(** ** The clusterer: which words share a line *)

Section StableSort.
Context {A : Type} (key : A -> Q).

Lemma insert_by_perm (x : A) (l : list A) :
  Permutation (x :: l) (insert_by key x l).
Proof.
  induction l as [|h t IH]; simpl; [ apply Permutation_refl | ].
  destruct (Qle_bool (key x) (key h)); [ apply Permutation_refl | ].
  eapply perm_trans; [ apply perm_swap | apply perm_skip, IH ].
Qed.

Lemma sorted_by_perm (l : list A) : Permutation l (sorted_by key l).
Proof.
  induction l as [|x l IH]; simpl; [ constructor | ].
  eapply perm_trans; [ apply perm_skip, IH | apply insert_by_perm ].
Qed.

Lemma sorted_by_In (x : A) (l : list A) : In x (sorted_by key l) <-> In x l.
Proof.
  split; apply Permutation_in;
    [ apply Permutation_sym | ]; apply sorted_by_perm.
Qed.
End StableSort.







(** ** The clusterer: the text of a line *)

(** C4, as stated, fails: two words one unit apart, under a tolerance of 3,
    are still written with a space between them. *)
Lemma cluster_lines_space_in_small_gap :
  (w_x0 word_cd - w_x1 word_ab <= 3)%Q /\
  cluster_lines [word_ab; word_cd] 3 3 = [mkLine 0 (u "ab cd") 10] /\
  spec_line_text 3 (bucket_words (mkBucket 0 [word_ab; word_cd])) = u "abcd".
Proof.
  split; [ vm_compute; discriminate | ].
  split; vm_compute; reflexivity.
Qed.

Lemma lstrip_app (X Z : str) :
  lstrip_by is_space (X ++ Z)
  = if all_ws X then lstrip_by is_space Z else lstrip_by is_space X ++ Z.
Proof.
  induction X as [|c X IH]; [ reflexivity | ].
  cbn [app lstrip_by all_ws forallb]. fold (all_ws X).
  destruct (is_space c); [ exact IH | reflexivity ].
Qed.

Lemma rstrip_nil (Z : str) : rstrip_by is_space Z = [] <-> all_ws Z = true.
Proof.
  induction Z as [|c Z IH]; [ split; reflexivity | ].
  cbn [rstrip_by all_ws forallb]. fold (all_ws Z).
  destruct (rstrip_by is_space Z) eqn:E.
  - destruct (is_space c); cbn [andb].
    + split; intros _; [ apply IH | ]; reflexivity.
    + split; discriminate.
  - split; [ discriminate | ].
    intros H. apply andb_prop in H. destruct H as [_ H].
    apply IH in H. discriminate H.
Qed.

Lemma rstrip_app (X Z : str) :
  rstrip_by is_space (X ++ Z)
  = if all_ws Z then rstrip_by is_space X else X ++ rstrip_by is_space Z.
Proof.
  induction X as [|c X IH].
  - cbn [app rstrip_by]. destruct (all_ws Z) eqn:E; [ | reflexivity ].
    apply rstrip_nil, E.
  - cbn [app rstrip_by]. rewrite IH.
    destruct (all_ws Z) eqn:E; [ reflexivity | ].
    destruct (X ++ rstrip_by is_space Z) eqn:E2; [ | reflexivity ].
    apply app_eq_nil in E2. destruct E2 as [_ E2].
    apply rstrip_nil in E2. congruence.
Qed.

Lemma collapse_app_congr (X Z1 Z2 : str) :
  (forall b, collapse_aux b Z1 = collapse_aux b Z2) ->
  forall b, collapse_aux b (X ++ Z1) = collapse_aux b (X ++ Z2).
Proof.
  intros HZ. induction X as [|c X IH]; intros b; [ apply HZ | ].
  cbn [app collapse_aux].
  destruct (is_space c); [ destruct b | ]; rewrite IH; reflexivity.
Qed.

(** Two more spaces next to a space change nothing. *)
Lemma norm_three_spaces (X Y : str) :
  norm (X ++ 32 :: 32 :: 32 :: Y) = norm (X ++ 32 :: Y).
Proof.
  unfold norm, strip, strip_by. rewrite !lstrip_app.
  destruct (all_ws X).
  - reflexivity.
  - rewrite !rstrip_app.
    change (all_ws (32 :: 32 :: 32 :: Y)) with (all_ws Y).
    change (all_ws (32 :: Y)) with (all_ws Y).
    destruct (all_ws Y) eqn:E; [ reflexivity | ].
    change (32 :: 32 :: 32 :: Y) with ([32; 32; 32] ++ Y).
    change (32 :: Y) with ([32] ++ Y).
    rewrite !rstrip_app, E.
    unfold collapse_ws. apply collapse_app_congr.
    intros b. destruct b; reflexivity.
Qed.

Lemma join_cons (sep p q : str) (r : list str) :
  join sep (p :: q :: r) = p ++ sep ++ join sep (q :: r).
Proof. reflexivity. Qed.

Lemma line_parts_text (x_tol : Q) (ws : list Word) :
  forall P,
    norm (P ++ join (u " ") (line_parts x_tol ws))
    = norm (P ++ join (u " ") (map w_text ws)).
Proof.
  induction ws as [|w rest IH]; intros P; [ reflexivity | ].
  destruct rest as [|nxt rest]; [ reflexivity | ].
  assert (Hlp : exists tl, line_parts x_tol (nxt :: rest) = w_text nxt :: tl)
    by (eexists; reflexivity).
  destruct Hlp as [tl Hlp].
  change (line_parts x_tol (w :: nxt :: rest))
    with (w_text w
            :: (if Qltb x_tol (w_x0 nxt - w_x1 w) then [u " "] else [])
            ++ line_parts x_tol (nxt :: rest)).
  change (map w_text (w :: nxt :: rest))
    with (w_text w :: w_text nxt :: map w_text rest).
  rewrite (join_cons _ (w_text w) (w_text nxt)).
  change (w_text nxt :: map w_text rest) with (map w_text (nxt :: rest)).
  specialize (IH (P ++ w_text w ++ u " ")).
  rewrite <- !app_assoc in IH.
  destruct (Qltb x_tol (w_x0 nxt - w_x1 w)).
  - cbn [app]. rewrite join_cons, Hlp, join_cons, <- Hlp.
    change (u " ") with [32] in *. cbn [app] in *.
    rewrite app_assoc, norm_three_spaces, <- app_assoc. exact IH.
  - cbn [app]. rewrite Hlp, join_cons, <- Hlp. exact IH.
Qed.

Lemma bucket_text_joined (x_tol : Q) (ws : list Word) :
  bucket_text x_tol ws = norm (join (u " ") (map w_text ws)).
Proof. exact (line_parts_text x_tol ws []). Qed.

Lemma bucket_line_any_tol (x_tol x_tol' : Q) (b : Bucket) :
  bucket_line x_tol b = bucket_line x_tol' b.
Proof.
  unfold bucket_line. rewrite !bucket_text_joined. reflexivity.
Qed.

(** C4 (amended): the text of a line is the texts of its words, in [x0]
    order, joined by a space, then stripped and with each run of whitespace
    turned into one space, whatever the gaps: the extra part added for a
    gap above [x_tol] is absorbed, and [x_tol] has no effect on the lines. *)
Theorem bucket_text_ignores_gaps (words ws : list Word) (y_tol x_tol x_tol' : Q) :
  bucket_text x_tol ws = collapse_ws (strip (join (u " ") (map w_text ws))) /\
  cluster_lines words y_tol x_tol = cluster_lines words y_tol x_tol'.
Proof.
  split; [ apply bucket_text_joined | ].
  unfold cluster_lines, cluster_lines_words. f_equal.
  apply flat_map_ext. intros b. apply bucket_line_any_tol.
Qed.

Lemma collapse_clean_prefix (t Z : str) (b : bool) :
  clean_text t -> collapse_aux b (t ++ Z) = t ++ collapse_aux false Z.
Proof.
  intros [Hne Hns]. destruct t as [|c t]; [ contradiction | clear Hne ].
  revert c b Hns. induction t as [|d t IH]; intros c b Hns;
    unfold no_space in Hns; cbn [forallb] in Hns;
    apply andb_prop in Hns; destruct Hns as [Hc Hrest];
    apply negb_true_iff in Hc; cbn [app collapse_aux]; rewrite Hc.
  - reflexivity.
  - f_equal. apply (IH d false). exact Hrest.
Qed.

Lemma all_ws_clean_prefix (t Z : str) : clean_text t -> all_ws (t ++ Z) = false.
Proof.
  intros [Hne Hns]. destruct t as [|c t]; [ contradiction | ].
  unfold no_space in Hns. cbn [forallb] in Hns.
  apply andb_prop in Hns. destruct Hns as [Hc _].
  apply negb_true_iff in Hc. cbn [app all_ws forallb]. rewrite Hc. reflexivity.
Qed.

Lemma join_clean (texts : list str) :
  Forall clean_text texts ->
  texts <> [] ->
  (forall b, collapse_aux b (join (u " ") texts) = join (u " ") texts) /\
  rstrip_by is_space (join (u " ") texts) = join (u " ") texts /\
  exists t Z, clean_text t /\ join (u " ") texts = t ++ Z.
Proof.
  induction texts as [|t rest IH]; intros Hall Hne; [ contradiction | ].
  inversion Hall as [|? ? Ht Hrest]; subst.
  destruct rest as [|q rest].
  - cbn [join]. split; [ | split ].
    + intros b. rewrite <- (app_nil_r t) at 1.
      rewrite (collapse_clean_prefix [] b Ht). apply app_nil_r.
    + apply rstrip_no_space, Ht.
    + exists t, []. split; [ exact Ht | symmetry; apply app_nil_r ].
  - destruct (IH Hrest) as (Hc & Hr & (t' & Z' & Ht' & Hj)); [ discriminate | ].
    rewrite join_cons. change (u " ") with [32] in *. cbn [app].
    split; [ | split ].
    + intros b. rewrite (collapse_clean_prefix _ b Ht).
      cbn [collapse_aux]. change (is_space 32) with true. cbv iota.
      rewrite Hc. reflexivity.
    + rewrite rstrip_app.
      change (all_ws (32 :: join [32] (q :: rest)))
        with (all_ws (join [32] (q :: rest))).
      rewrite Hj at 1. rewrite (all_ws_clean_prefix _ Ht').
      change (32 :: join [32] (q :: rest)) with ([32] ++ join [32] (q :: rest)).
      rewrite rstrip_app. rewrite Hj at 1. rewrite (all_ws_clean_prefix _ Ht').
      rewrite Hr. reflexivity.
    + exists t, (32 :: join [32] (q :: rest)). split; [ exact Ht | reflexivity ].
Qed.

(** For clean words the text of the line is, exactly, the texts of the
    words with one space between neighbours. *)
Lemma bucket_text_clean_words (x_tol : Q) (ws : list Word) :
  Forall (fun w => clean_text (w_text w)) ws ->
  bucket_text x_tol ws = join (u " ") (map w_text ws).
Proof.
  intros Hall. rewrite bucket_text_joined.
  destruct ws as [|w rest]; [ reflexivity | ].
  assert (Hc : Forall clean_text (map w_text (w :: rest)))
    by (apply Forall_map; exact Hall).
  destruct (join_clean Hc) as (Hcol & Hr & (t & Z & Ht & Hj)); [ discriminate | ].
  unfold norm, strip, strip_by, collapse_ws.
  assert (Hl : lstrip_by is_space (join (u " ") (map w_text (w :: rest)))
               = join (u " ") (map w_text (w :: rest))).
  { rewrite Hj. destruct Ht as [Hne Hns]. destruct t as [|c t]; [ contradiction | ].
    unfold no_space in Hns. cbn [forallb] in Hns.
    apply andb_prop in Hns. destruct Hns as [Hcs _].
    apply negb_true_iff in Hcs. cbn [app lstrip_by]. rewrite Hcs. reflexivity. }
  rewrite Hl, Hr. apply Hcol.
Qed.

(** ** The zone locator: title candidates and title lines *)


Lemma Qltb_lt (a b : Q) : Qltb a b = true <-> (a < b)%Q.
Proof.
  unfold Qltb. rewrite negb_true_iff. split.
  - intros E. apply Qnot_le_lt. intros Hle.
    apply Qle_bool_iff in Hle. congruence.
  - intros Hlt. destruct (Qle_bool b a) eqn:E; [ | reflexivity ].
    apply Qle_bool_iff in E. exfalso. revert Hlt. apply Qle_not_lt, E.
Qed.

Lemma Qltb_ge (a b : Q) : Qltb a b = false <-> (b <= a)%Q.
Proof.
  unfold Qltb. rewrite negb_false_iff. apply Qle_bool_iff.
Qed.

Lemma Qle_bool_gt (a b : Q) : Qle_bool a b = false -> (b < a)%Q.
Proof.
  intros E. apply Qnot_le_lt. intros Hle. apply Qle_bool_iff in Hle. congruence.
Qed.



Lemma max_from_ge (rest : list Q) :
  forall first,
    (first <= max_from first rest)%Q /\
    (forall x, In x rest -> (x <= max_from first rest)%Q) /\
    In (max_from first rest) (first :: rest).
Proof.
  unfold max_from.
  induction rest as [|x rest IH]; intros first; cbn [fold_left].
  - split; [ lra | split; [ intros ? [] | left; reflexivity ] ].
  - destruct (Qltb first x) eqn:E.
    + apply Qltb_lt in E. destruct (IH x) as (H1 & H2 & H3).
      split; [ lra | split ].
      * intros z [-> | Hz]; [ exact H1 | apply H2, Hz ].
      * right. exact H3.
    + apply Qltb_ge in E. destruct (IH first) as (H1 & H2 & H3).
      split; [ exact H1 | split ].
      * intros z [<- | Hz]; [ lra | apply H2, Hz ].
      * destruct H3 as [H3 | H3]; [ left; exact H3 | right; right; exact H3 ].
Qed.


Lemma title_candidates_In (top : list Line) (li : Line) :
  In li (title_candidates top) <->
  In li top /\ (max_font top - (15 # 10) <= line_max_size li)%Q /\
  is_header_banner (line_text li) = false.
Proof.
  unfold title_candidates.
  rewrite sorted_by_In, filter_In, andb_true_iff, negb_true_iff, Qle_bool_iff.
  tauto.
Qed.



Lemma take_title_prefix (cands : list Line) :
  Forall (fun li => is_header_banner (line_text li) = false) cands ->
  forall last,
    exists rest,
      cands = take_title last cands ++ rest /\
      within20 last (take_title last cands) /\
      gap_after (last_y last (take_title last cands)) rest.
Proof.
  induction cands as [|li r IH]; intros Hall last.
  - exists []. repeat split.
  - inversion Hall as [|? ? Hli Hr]; subst.
    cbn [take_title]. rewrite Hli.
    destruct last as [y0|].
    + destruct (Qle_bool (Qabs (line_y li - y0)) 20) eqn:E.
      * destruct (IH Hr (Some (line_y li))) as (rest & E1 & E2 & E3).
        exists rest. split; [ cbn [app]; f_equal; exact E1 | ].
        split; [ split; [ apply Qle_bool_iff, E | exact E2 ] | exact E3 ].
      * exists (li :: r). split; [ reflexivity | split; [ exact I | ] ].
        apply Qle_bool_gt, E.
    + destruct (IH Hr (Some (line_y li))) as (rest & E1 & E2 & E3).
      exists rest. split; [ cbn [app]; f_equal; exact E1 | ].
      split; [ split; [ exact I | exact E2 ] | exact E3 ].
Qed.



(** The bound of the metadata region, case by case. *)
Lemma absinfo_y_cases (H : Q) (lines : list Line) :
  absinfo_y H lines
  = match find_y lines RE_ARTINFO, find_y lines RE_ABS_HDR with
    | Some y, other =>
        if Qeq_bool y 0
        then match other with Some y' => y' | None => (H * (62 # 100))%Q end
        else y
    | None, Some y' => y'
    | None, None => (H * (62 # 100))%Q
    end.
Proof.
  unfold absinfo_y.
  destruct (find_y lines RE_ARTINFO) as [y|]; [ destruct (Qeq_bool y 0) | ];
    destruct (find_y lines RE_ABS_HDR); reflexivity.
Qed.

(** ** The clusterer: order, grouping and sizes *)

Section StableSortOrder.
Context {A : Type} (key : A -> Q).

Lemma insert_by_key_sorted (x : A) (l : list A) :
  StronglySorted (key_le key) l -> StronglySorted (key_le key) (insert_by key x l).
Proof.
  induction l as [|h t IH]; intros Hs; cbn [insert_by].
  - constructor; constructor.
  - inversion Hs as [|? ? Ht Hall]; subst.
    destruct (Qle_bool (key x) (key h)) eqn:E.
    + apply Qle_bool_iff in E. constructor; [ exact Hs | ].
      constructor; [ exact E | ].
      rewrite Forall_forall in Hall |- *. intros z Hz.
      specialize (Hall z Hz). unfold key_le in *. lra.
    + apply Qle_bool_gt in E. constructor; [ apply IH, Ht | ].
      rewrite Forall_forall in Hall |- *. intros z Hz.
      apply (Permutation_in _ (Permutation_sym (insert_by_perm key x t))) in Hz.
      destruct Hz as [<- | Hz]; [ unfold key_le; lra | apply Hall, Hz ].
Qed.

Lemma sorted_by_key_sorted (l : list A) : StronglySorted (key_le key) (sorted_by key l).
Proof.
  induction l as [|x l IH]; cbn [sorted_by fold_right]; [ constructor | ].
  apply insert_by_key_sorted, IH.
Qed.

End StableSortOrder.

Lemma bucket_line_y (x_tol : Q) (b : Bucket) (e : Line * list Word) :
  In e (bucket_line x_tol b) ->
  line_y (fst e) = b_y b /\ snd e = bucket_words b /\
  line_text (fst e) = bucket_text x_tol (bucket_words b) /\
  line_text (fst e) <> [] /\
  line_max_size (fst e) = max_or 0 (map word_size (bucket_words b)).
Proof.
  unfold bucket_line.
  destruct (bucket_text x_tol (bucket_words b)) eqn:E; [ intros [] | ].
  intros [<- | []]. cbn [fst snd line_y line_text line_max_size].
  repeat split; discriminate.
Qed.

Lemma lines_of_sorted_buckets (x_tol : Q) (bs : list Bucket) :
  StronglySorted (key_le b_y) bs ->
  StronglySorted by_y (flat_map (bucket_line x_tol) bs).
Proof.
  induction bs as [|b rest IH]; intros Hs; cbn [flat_map]; [ constructor | ].
  inversion Hs as [|? ? Hrest Hall]; subst.
  specialize (IH Hrest).
  destruct (bucket_line x_tol b) as [|e tl] eqn:E; [ exact IH | ].
  assert (tl = []) as ->.
  { unfold bucket_line in E.
    destruct (bucket_text x_tol (bucket_words b)); [ discriminate | ].
    inversion E. reflexivity. }
  cbn [app]. constructor; [ exact IH | ].
  assert (He : In e (bucket_line x_tol b)) by (rewrite E; left; reflexivity).
  apply bucket_line_y in He. destruct He as (Hy & _).
  apply Forall_forall. intros e' He'.
  apply in_flat_map in He'. destruct He' as (b' & Hb' & He').
  apply bucket_line_y in He'. destruct He' as (Hy' & _).
  rewrite Forall_forall in Hall. specialize (Hall b' Hb').
  unfold by_y, key_le in *. rewrite Hy, Hy'. exact Hall.
Qed.

(** X1: The lines come out in ascending [y]: each line is at or above every
    line after it in the list. *)
Theorem cluster_lines_sorted (words : list Word) (y_tol x_tol : Q) :
  StronglySorted y_le (cluster_lines words y_tol x_tol).
Proof.
  unfold cluster_lines, cluster_lines_words.
  pose proof (lines_of_sorted_buckets x_tol
                (sorted_by_key_sorted b_y (make_buckets y_tol words))) as Hs.
  induction Hs as [|e l Hl IH Hall]; cbn [map]; constructor; [ exact IH | ].
  rewrite Forall_forall in Hall |- *. intros li Hli.
  apply in_map_iff in Hli. destruct Hli as (e' & <- & He').
  exact (Hall e' He').
Qed.

(** ** The clusterer: no word is lost, one bucket for one row *)

Lemma place_perm (y_tol : Q) (w : Word) (buckets : list Bucket) :
  Permutation (flat_map b_ws (place y_tol w buckets)) (w :: flat_map b_ws buckets).
Proof.
  induction buckets as [|b rest IH]; cbn [place flat_map].
  - apply Permutation_refl.
  - destruct (Qle_bool (Qabs (b_y b - w_top w)) y_tol); cbn [flat_map b_ws].
    + rewrite <- app_assoc. cbn [app].
      apply Permutation_sym. apply Permutation_middle.
    + eapply perm_trans; [ apply Permutation_app_head, IH | ].
      apply Permutation_sym. apply Permutation_middle.
Qed.

Lemma fold_place_perm (y_tol : Q) (words : list Word) :
  forall buckets,
    Permutation (flat_map b_ws (fold_left (fun bs w => place y_tol w bs) words buckets))
                (flat_map b_ws buckets ++ words).
Proof.
  induction words as [|w rest IH]; intros buckets; cbn [fold_left].
  - rewrite app_nil_r. apply Permutation_refl.
  - eapply perm_trans; [ apply IH | ].
    eapply perm_trans; [ apply Permutation_app_tail, place_perm | ].
    cbn [app]. apply Permutation_middle.
Qed.

(** X2: The buckets hold the words of the page, each word once: nothing is
    dropped and nothing is repeated by the grouping, whatever the
    tolerance. *)
Theorem make_buckets_partition (y_tol : Q) (words : list Word) :
  Permutation (flat_map b_ws (make_buckets y_tol words)) words.
Proof.
  unfold make_buckets. apply (fold_place_perm y_tol words []).
Qed.

Lemma fold_place_one_bucket (y_tol y0 : Q) (words : list Word) :
  forall ws0,
    Forall (fun w => (Qabs (y0 - w_top w) <= y_tol)%Q) words ->
    fold_left (fun bs w => place y_tol w bs) words [mkBucket y0 ws0]
    = [mkBucket y0 (ws0 ++ words)].
Proof.
  induction words as [|w rest IH]; intros ws0 Hall; cbn [fold_left].
  - rewrite app_nil_r. reflexivity.
  - inversion Hall as [|? ? Hw Hrest]; subst.
    cbn [place b_y b_ws]. apply Qle_bool_iff in Hw. rewrite Hw.
    rewrite (IH _ Hrest), <- app_assoc. reflexivity.
Qed.

(** X3: Words that all lie within the tolerance of the first word's position
    (words of one row, for one) form a single bucket opened at that
    position, so at most one line, whose words are those of the page from
    left to right. *)
Theorem cluster_lines_one_row (w0 : Word) (words : list Word) (y_tol x_tol : Q) :
  Forall (fun w => (Qabs (w_top w0 - w_top w) <= y_tol)%Q) words ->
  make_buckets y_tol (w0 :: words) = [mkBucket (w_top w0) (w0 :: words)] /\
  cluster_lines_words (w0 :: words) y_tol x_tol
  = bucket_line x_tol (mkBucket (w_top w0) (w0 :: words)) /\
  (forall l lws,
      In (l, lws) (cluster_lines_words (w0 :: words) y_tol x_tol) ->
      line_y l = w_top w0 /\
      Permutation lws (w0 :: words) /\
      StronglySorted x0_le lws).
Proof.
  intros Hall.
  assert (Hb : make_buckets y_tol (w0 :: words) = [mkBucket (w_top w0) (w0 :: words)]).
  { unfold make_buckets. cbn [fold_left place].
    apply (@fold_place_one_bucket y_tol (w_top w0) words [w0] Hall). }
  assert (Hl : cluster_lines_words (w0 :: words) y_tol x_tol
               = bucket_line x_tol (mkBucket (w_top w0) (w0 :: words))).
  { unfold cluster_lines_words. rewrite Hb.
    cbn [sorted_by fold_right insert_by flat_map]. apply app_nil_r. }
  split; [ exact Hb | split; [ exact Hl | ] ].
  intros l lws Hin. rewrite Hl in Hin.
  apply bucket_line_y in Hin. cbn [fst snd b_y] in Hin.
  destruct Hin as (Hy & Hws & _). subst lws.
  unfold bucket_words. cbn [b_ws].
  split; [ exact Hy | split ].
  - apply Permutation_sym, sorted_by_perm.
  - apply (sorted_by_key_sorted w_x0).
Qed.

Lemma cluster_lines_one_row_witness :
  Forall (fun w => (Qabs (w_top row_word_1 - w_top w) <= 3)%Q) [row_word_2] /\
  cluster_lines [row_word_1; row_word_2] 3 3 = [mkLine 100 (u "nets Deep") 12].
Proof.
  assert (H : Forall (fun w => (Qabs (w_top row_word_1 - w_top w) <= 3)%Q) [row_word_2])
    by (constructor; [ vm_compute; discriminate | constructor ]).
  split; [ exact H | ].
  unfold cluster_lines.
  rewrite (proj1 (proj2 (@cluster_lines_one_row row_word_1 [row_word_2] 3 3 H))).
  vm_compute. reflexivity.
Defined.

(** ** The clusterer: size and text of a line *)

Lemma bucket_text_nil (x_tol : Q) : bucket_text x_tol [] = [].
Proof. reflexivity. Qed.

(** X4: The size of a line is the greatest size among its words (an absent
    size counting as 0), and one of its words has it. *)
Theorem line_max_size_greatest (words : list Word) (y_tol x_tol : Q)
        (l : Line) (lws : list Word) :
  In (l, lws) (cluster_lines_words words y_tol x_tol) ->
  (forall w, In w lws -> (word_size w <= line_max_size l)%Q) /\
  (exists w, In w lws /\ word_size w = line_max_size l).
Proof.
  unfold cluster_lines_words. intros Hin.
  apply in_flat_map in Hin. destruct Hin as (b & _ & Hl).
  apply bucket_line_y in Hl. cbn [fst snd] in Hl.
  destruct Hl as (_ & -> & Ht & Hne & ->).
  destruct (bucket_words b) as [|w0 rest] eqn:E.
  - rewrite Ht in Hne. contradiction Hne. reflexivity.
  - cbn [map max_or].
    destruct (max_from_ge (map word_size rest) (word_size w0)) as (H1 & H2 & H3).
    split.
    + intros w [<- | Hw]; [ exact H1 | apply H2, in_map, Hw ].
    + change (word_size w0 :: map word_size rest)
        with (map word_size (w0 :: rest)) in H3.
      apply in_map_iff in H3. destruct H3 as (w & Hw & Hin). exists w. auto.
Qed.

Lemma line_max_size_greatest_witness :
  In (mkLine 100 (u "nets Deep") 12, [row_word_2; row_word_1])
     (cluster_lines_words [row_word_1; row_word_2] 3 3) /\
  exists w, In w [row_word_2; row_word_1] /\ word_size w = 12%Q.
Proof.
  assert (H : In (mkLine 100 (u "nets Deep") 12, [row_word_2; row_word_1])
                 (cluster_lines_words [row_word_1; row_word_2] 3 3))
    by (vm_compute; left; reflexivity).
  split; [ exact H | ].
  exact (proj2 (@line_max_size_greatest _ _ _ _ _ H)).
Defined.

Lemma collapse_idem (s : str) :
  (forall b, collapse_aux false (collapse_aux b s) = collapse_aux b s) /\
  collapse_aux true (collapse_aux true s) = collapse_aux true s.
Proof.
  induction s as [|c r [IH1 IH2]]; [ split; [ intros b | ]; reflexivity | ].
  split.
  - intros b. cbn [collapse_aux]. destruct (is_space c) eqn:Ec.
    + destruct b; [ apply IH1 | ].
      cbn [collapse_aux]. change (is_space 32) with true. cbv iota.
      rewrite IH2. reflexivity.
    + cbn [collapse_aux]. rewrite Ec, IH1. reflexivity.
  - cbn [collapse_aux]. destruct (is_space c) eqn:Ec; [ exact IH2 | ].
    cbn [collapse_aux]. rewrite Ec, IH1. reflexivity.
Qed.

Lemma collapse_not_nil (s : str) (b : bool) :
  all_ws s = false -> collapse_aux b s <> [].
Proof.
  revert b. induction s as [|c r IH]; intros b H; [ discriminate H | ].
  cbn [all_ws forallb] in H. cbn [collapse_aux].
  destruct (is_space c); [ | discriminate ].
  cbn [andb] in H. fold (all_ws r) in H.
  destruct b; [ apply IH, H | discriminate ].
Qed.

Lemma rstrip_cons_fixed (x : Z) (X : str) :
  rstrip_by is_space X = X -> X <> [] -> rstrip_by is_space (x :: X) = x :: X.
Proof.
  intros HX Hne. cbn [rstrip_by]. rewrite HX.
  destruct X; [ contradiction | reflexivity ].
Qed.

Lemma rstrip_collapse (t : str) :
  rstrip_by is_space t = t ->
  forall b, rstrip_by is_space (collapse_aux b t) = collapse_aux b t.
Proof.
  induction t as [|c r IH]; intros Ht b; [ reflexivity | ].
  cbn [rstrip_by] in Ht.
  destruct (rstrip_by is_space r) as [|c' r'] eqn:Er.
  - destruct (is_space c) eqn:Ec; [ discriminate Ht | ].
    inversion Ht; subst. cbn [collapse_aux]. rewrite Ec.
    cbn [collapse_aux rstrip_by]. rewrite Ec. reflexivity.
  - assert (Hr : c' :: r' = r) by congruence.
    assert (Hne : r <> []) by (rewrite <- Hr; discriminate).
    assert (Hws : all_ws r = false).
    { destruct (all_ws r) eqn:E; [ | reflexivity ].
      apply rstrip_nil in E. congruence. }
    cbn [collapse_aux].
    destruct (is_space c); [ destruct b | ];
      try (apply rstrip_cons_fixed; [ apply IH, Hr | apply collapse_not_nil, Hws ]).
    apply IH, Hr.
Qed.

Lemma rstrip_idem (s : str) :
  rstrip_by is_space (rstrip_by is_space s) = rstrip_by is_space s.
Proof.
  induction s as [|c r IH]; [ reflexivity | ].
  cbn [rstrip_by].
  destruct (rstrip_by is_space r) as [|c' r'] eqn:Er.
  - destruct (is_space c) eqn:Ec; [ reflexivity | ].
    cbn [rstrip_by]. rewrite Ec. reflexivity.
  - apply rstrip_cons_fixed; [ exact IH | discriminate ].
Qed.

Lemma lstrip_head (s : str) :
  lstrip_by is_space s = [] \/
  exists c r, lstrip_by is_space s = c :: r /\ is_space c = false.
Proof.
  induction s as [|c r IH]; [ left; reflexivity | ].
  cbn [lstrip_by]. destruct (is_space c) eqn:Ec; [ exact IH | ].
  right. exists c, r. auto.
Qed.

(** What [strip] returns: nothing, or a text that starts with a character
    that is no whitespace and that [rstrip] leaves alone. *)
Lemma strip_shape (s : str) :
  strip s = [] \/
  exists c r, strip s = c :: r /\ is_space c = false /\
              rstrip_by is_space (c :: r) = c :: r.
Proof.
  unfold strip, strip_by.
  destruct (lstrip_head s) as [-> | (c & r & -> & Hc)]; [ left; reflexivity | ].
  right.
  assert (Hr : rstrip_by is_space (c :: r) = c :: tl (rstrip_by is_space (c :: r))).
  { cbn [rstrip_by]. destruct (rstrip_by is_space r); [ rewrite Hc | ]; reflexivity. }
  exists c, (tl (rstrip_by is_space (c :: r))).
  rewrite <- Hr. split; [ reflexivity | split; [ exact Hc | apply rstrip_idem ] ].
Qed.

Lemma strip_fixed (c : Z) (r : str) :
  is_space c = false -> rstrip_by is_space (c :: r) = c :: r ->
  strip (c :: r) = c :: r.
Proof.
  intros Hc Hr. unfold strip, strip_by. cbn [lstrip_by]. rewrite Hc. exact Hr.
Qed.

Lemma strip_idem (s : str) : strip (strip s) = strip s.
Proof.
  destruct (strip_shape s) as [-> | (c & r & -> & Hc & Hr)]; [ reflexivity | ].
  apply strip_fixed; assumption.
Qed.

(** A stripped and collapsed text is left alone by both steps. *)
Lemma norm_tidy (s : str) :
  strip (norm s) = norm s /\ collapse_ws (norm s) = norm s.
Proof.
  unfold norm, collapse_ws. split; [ | apply collapse_idem ].
  destruct (strip_shape s) as [-> | (c & r & -> & Hc & Hr)]; [ reflexivity | ].
  pose proof (rstrip_collapse Hr false) as Hrc.
  cbn [collapse_aux] in *. rewrite Hc in *.
  apply strip_fixed; assumption.
Qed.

(** X5: The text of every line is not empty, has no whitespace at either end,
    and holds no whitespace but single spaces: stripping it or collapsing
    its whitespace again changes nothing. *)
Theorem cluster_lines_text_tidy (words : list Word) (y_tol x_tol : Q) (l : Line) :
  In l (cluster_lines words y_tol x_tol) ->
  line_text l <> [] /\
  strip (line_text l) = line_text l /\
  collapse_ws (line_text l) = line_text l.
Proof.
  unfold cluster_lines, cluster_lines_words. intros Hin.
  apply in_map_iff in Hin. destruct Hin as (e & <- & He).
  apply in_flat_map in He. destruct He as (b & _ & He).
  apply bucket_line_y in He. destruct He as (_ & _ & Ht & Hne & _).
  split; [ exact Hne | ].
  rewrite Ht. unfold bucket_text.
  apply (norm_tidy (join (u " ") (line_parts x_tol (bucket_words b)))).
Qed.

Lemma cluster_lines_text_tidy_witness :
  In (mkLine 100 (u "nets Deep") 12) (cluster_lines [row_word_1; row_word_2] 3 3) /\
  strip (u "nets Deep") = u "nets Deep" /\
  collapse_ws (u "nets Deep") = u "nets Deep".
Proof.
  assert (H : In (mkLine 100 (u "nets Deep") 12)
                 (cluster_lines [row_word_1; row_word_2] 3 3))
    by (vm_compute; left; reflexivity).
  split; [ exact H | ].
  exact (proj2 (@cluster_lines_text_tidy _ _ _ _ H)).
Defined.

(** ** The matcher against the meaning of patterns *)

Lemma star_loop_sound (ic : bool) (a : regex)
      (k : mstate -> option mstate) :
  (forall st k x, rmatch ic a st k = Some x ->
                  exists st', matches ic a st st' /\ k st' = Some x) ->
  forall n st x,
    star_loop (rmatch ic a) k n st = Some x ->
    exists st', clos_refl_trans_1n mstate (matches ic a) st st' /\ k st' = Some x.
Proof.
  intros Hbody. induction n as [|n IH]; intros st x Hx; cbn [star_loop] in Hx.
  - exists st. split; [ constructor | exact Hx ].
  - match type of Hx with
    | match ?e with _ => _ end = _ => destruct e as [y|] eqn:E
    end.
    + inversion Hx; subst y.
      apply Hbody in E. destruct E as (st1 & Hm & Hk).
      destruct (length (after st1) <? length (after st))%nat; [ | discriminate Hk ].
      apply IH in Hk. destruct Hk as (st' & Hs & Hk).
      exists st'. split; [ econstructor; eassumption | exact Hk ].
    + exists st. split; [ constructor | exact Hx ].
Qed.

(** Whatever the matcher accepts is a match of the pattern. *)
Lemma rmatch_sound (ic : bool) (r : regex) :
  forall st k x,
    rmatch ic r st k = Some x ->
    exists st', matches ic r st st' /\ k st' = Some x.
Proof.
  induction r as [ | items | a IHa b IHb | a IHa b IHb | a IHa | n a IHa | | | ];
    intros st k x Hx; cbn [rmatch] in Hx; cbn [matches].
  - exists st. auto.
  - destruct (after st) as [|c rest] eqn:Ea; [ discriminate Hx | ].
    destruct (existsb (fun it => cset_matches ic it c) items) eqn:Ei;
      [ | discriminate Hx ].
    eexists. split; [ exists c, rest; eauto | exact Hx ].
  - apply IHa in Hx. destruct Hx as (m & Hm & Hx).
    apply IHb in Hx. destruct Hx as (st' & Hb & Hk).
    exists st'. split; [ exists m; auto | exact Hk ].
  - destruct (rmatch ic a st k) as [y|] eqn:E.
    + inversion Hx; subst y. apply IHa in E. destruct E as (st' & Hm & Hk).
      exists st'. auto.
    + apply IHb in Hx. destruct Hx as (st' & Hm & Hk). exists st'. auto.
  - apply (star_loop_sound ic a k IHa) in Hx. exact Hx.
  - apply IHa in Hx. destruct Hx as (m & Hm & Hk).
    eexists. split; [ exists m; split; [ exact Hm | reflexivity ] | exact Hk ].
  - destruct (before st) eqn:E; [ | discriminate Hx ]. exists st. auto.
  - destruct (after st) as [|c [|d rest]] eqn:E.
    + exists st. auto.
    + destruct (Z.eq_dec c 10) as [-> | Hne].
      * exists st. auto.
      * exfalso. destruct c as [|p|p]; try discriminate Hx.
        repeat (destruct p as [p|p|]; try discriminate Hx). apply Hne. reflexivity.
    + exfalso. destruct c as [|p|p]; try discriminate Hx.
      repeat (destruct p as [p|p|]; try discriminate Hx).
  - destruct (at_word_boundary st) eqn:E; [ | discriminate Hx ]. exists st. auto.
Qed.

Lemma moved_refl (st : mstate) : moved [] st st.
Proof. split; reflexivity. Qed.

Lemma moved_trans (t1 t2 : str) (a b c : mstate) :
  moved t1 a b -> moved t2 b c -> moved (t1 ++ t2) a c.
Proof.
  intros [A1 B1] [A2 B2]. split.
  - rewrite A1, A2, app_assoc. reflexivity.
  - rewrite B2, B1, rev_app_distr, app_assoc. reflexivity.
Qed.

(** A match only moves forward, over the text it matched. *)
Lemma matches_moved (ic : bool) (r : regex) :
  forall st st', matches ic r st st' -> exists t, moved t st st'.
Proof.
  induction r as [ | items | a IHa b IHb | a IHa b IHb | a IHa | n a IHa | | | ];
    intros st st' Hm; cbn [matches] in Hm.
  - subst. exists []. apply moved_refl.
  - destruct Hm as (c & rest & Ha & _ & ->). exists [c].
    split; [ exact Ha | reflexivity ].
  - destruct Hm as (m & H1 & H2).
    apply IHa in H1. apply IHb in H2.
    destruct H1 as (t1 & H1). destruct H2 as (t2 & H2).
    exists (t1 ++ t2). eapply moved_trans; eassumption.
  - destruct Hm as [Hm | Hm]; [ apply IHa | apply IHb ]; exact Hm.
  - induction Hm as [st | st m st' H1 _ IH].
    + exists []. apply moved_refl.
    + apply IHa in H1. destruct H1 as (t1 & H1). destruct IH as (t2 & H2).
      exists (t1 ++ t2). eapply moved_trans; eassumption.
  - destruct Hm as (m & H1 & ->). apply IHa in H1. exact H1.
  - destruct Hm as [_ ->]. exists []. apply moved_refl.
  - destruct Hm as [_ ->]. exists []. apply moved_refl.
  - destruct Hm as [_ ->]. exists []. apply moved_refl.
Qed.

Lemma moved_consumed (t : str) (st st' : mstate) :
  moved t st st' -> consumed st st' = t.
Proof.
  intros [_ Hb]. unfold consumed. rewrite Hb, length_app, length_rev.
  replace (length t + length (before st) - length (before st))%nat
    with (length t + 0)%nat by lia.
  rewrite <- (length_rev t), firstn_app_2. cbn [firstn].
  rewrite app_nil_r. apply rev_involutive.
Qed.

(** A pattern without groups leaves the captured groups as they were. *)
Lemma matches_group_free (ic : bool) (r : regex) :
  group_free r = true ->
  forall st st', matches ic r st st' -> caps st' = caps st.
Proof.
  induction r as [ | items | a IHa b IHb | a IHa b IHb | a IHa | n a IHa | | | ];
    cbn [group_free]; intros Hg st st' Hm; cbn [matches] in Hm;
    try (apply andb_prop in Hg; destruct Hg as [Hga Hgb]).
  - subst. reflexivity.
  - destruct Hm as (c & rest & _ & _ & ->). reflexivity.
  - destruct Hm as (m & H1 & H2).
    rewrite (IHb Hgb _ _ H2). apply (IHa Hga _ _ H1).
  - destruct Hm as [Hm | Hm]; [ apply (IHa Hga) | apply (IHb Hgb) ]; exact Hm.
  - induction Hm as [st | st m st' H1 _ IH]; [ reflexivity | ].
    rewrite IH. apply (IHa Hg _ _ H1).
  - discriminate Hg.
  - destruct Hm as [_ ->]. reflexivity.
  - destruct Hm as [_ ->]. reflexivity.
  - destruct Hm as [_ ->]. reflexivity.
Qed.

Lemma consumed_of_before (t : str) (st st' : mstate) :
  before st' = rev t ++ before st -> consumed st st' = t.
Proof.
  intros Hb. unfold consumed. rewrite Hb, length_app, length_rev.
  replace (length t + length (before st) - length (before st))%nat
    with (length t + 0)%nat by lia.
  rewrite <- (length_rev t), firstn_app_2. cbn [firstn].
  rewrite app_nil_r. apply rev_involutive.
Qed.

Lemma match_at_moved (ic : bool) (r : regex) (bef aft : str) (st : mstate) :
  match_at ic r bef aft = Some st ->
  matches ic r (MState bef aft []) st /\
  aft = m_text (obj_of bef st) ++ after st /\
  before st = rev (m_text (obj_of bef st)) ++ bef.
Proof.
  unfold match_at. intros H. apply rmatch_sound in H.
  destruct H as (st' & Hm & Hk). inversion Hk; subst st'.
  split; [ exact Hm | ].
  destruct (matches_moved _ _ _ _ Hm) as (t & Ha & Hb).
  cbn [after before] in Ha, Hb.
  unfold obj_of. cbn [m_text].
  rewrite (@consumed_of_before t (MState bef [] []) st Hb). auto.
Qed.

(** The pieces of a scan, the matches and the text between them, put side
    by side give back the text that was scanned. *)
Lemma scan_covers (ic : bool) (r : regex) (fuel : nat) :
  forall bef aft gap,
    flat_map piece_text (scan fuel ic r bef aft gap) = gap ++ aft.
Proof.
  induction fuel as [|f IH]; intros bef aft gap; cbn [scan].
  - cbn. apply app_nil_r.
  - destruct (match_at ic r bef aft) as [st|] eqn:E.
    + apply match_at_moved in E. destruct E as (_ & Ha & _).
      destruct (m_text (obj_of bef st)) as [|c0 t0] eqn:Et.
      * destruct aft as [|c aft'].
        -- cbn [flat_map piece_text app]. rewrite Et. rewrite !app_nil_r. reflexivity.
        -- cbn [flat_map piece_text]. rewrite IH, Et. reflexivity.
      * cbn [flat_map piece_text]. rewrite IH, Et. cbn [app].
        rewrite Ha. reflexivity.
    + destruct aft as [|c aft'].
      * cbn [flat_map piece_text app]. reflexivity.
      * rewrite IH, <- app_assoc. reflexivity.
Qed.

Lemma scan_matches (ic : bool) (r : regex) (fuel : nat) :
  forall bef aft gap o,
    In (inr o) (scan fuel ic r bef aft gap) ->
    exists bef' aft' st,
      matches ic r (MState bef' aft' []) st /\ o = obj_of bef' st /\
      before st = rev (m_text o) ++ bef'.
Proof.
  induction fuel as [|f IH]; intros bef aft gap o Hin; cbn [scan] in Hin.
  - destruct Hin as [H | []]. discriminate H.
  - destruct (match_at ic r bef aft) as [st|] eqn:E.
    + assert (Hhere : exists bef' aft' st0,
                 matches ic r (MState bef' aft' []) st0 /\
                 obj_of bef st = obj_of bef' st0 /\
                 before st0 = rev (m_text (obj_of bef st)) ++ bef').
      { apply match_at_moved in E. destruct E as (Hm & _ & Hb).
        exists bef, aft, st. auto. }
      destruct (m_text (obj_of bef st)) as [|c0 t0] eqn:Et.
      * destruct aft as [|c aft'].
        -- destruct Hin as [H | [H | []]]; [ discriminate H | ].
           inversion H; subst o. rewrite Et. exact Hhere.
        -- destruct Hin as [H | [H | Hin]]; [ discriminate H | | eapply IH, Hin ].
           inversion H; subst o. rewrite Et. exact Hhere.
      * destruct Hin as [H | [H | Hin]]; [ discriminate H | | eapply IH, Hin ].
        inversion H; subst o. rewrite Et. exact Hhere.
    + destruct aft as [|c aft'].
      * destruct Hin as [H | []]. discriminate H.
      * eapply IH, Hin.
Qed.

Lemma pieces_keep_non_space (repl : rmatch_obj -> str) (l : list (str + rmatch_obj)) :
  (forall o, In (inr o) l -> remove_ws (repl o) = remove_ws (m_text o)) ->
  remove_ws (flat_map (fun x => match x with inl t => t | inr o => repl o end) l)
  = remove_ws (flat_map piece_text l).
Proof.
  induction l as [|x l IH]; intros Hl; [ reflexivity | ].
  cbn [flat_map]. unfold remove_ws in *. rewrite !filter_app.
  rewrite IH by (intros o Ho; apply Hl; right; exact Ho).
  f_equal. destruct x as [t | o]; [ reflexivity | ].
  apply Hl. left. reflexivity.
Qed.

(** A substitution whose replacements keep the characters that are no
    whitespace keeps them in the whole text. *)
Lemma re_sub_keeps_non_space (ic : bool) (r : regex) (repl : rmatch_obj -> str) (s : str) :
  (forall bef aft st,
      matches ic r (MState bef aft []) st ->
      before st = rev (m_text (obj_of bef st)) ++ bef ->
      remove_ws (repl (obj_of bef st)) = remove_ws (m_text (obj_of bef st))) ->
  remove_ws (re_sub ic r repl s) = remove_ws s.
Proof.
  intros Hrepl. unfold re_sub, re_scan.
  rewrite pieces_keep_non_space.
  - rewrite scan_covers. reflexivity.
  - intros o Ho. apply scan_matches in Ho.
    destruct Ho as (bef' & aft' & st & Hm & -> & Hb).
    apply (Hrepl _ _ _ Hm Hb).
Qed.

(** ** Merged-text repair: only spaces are added *)

Lemma seq_two_groups (ic : bool) (a b : regex) (st0 st : mstate) :
  group_free a = true -> group_free b = true ->
  matches ic (RSeq (RGroup 1 a) (RGroup 2 b)) st0 st ->
  exists t1 t2, moved (t1 ++ t2) st0 st /\ caps st = (2%nat, t2) :: (1%nat, t1) :: caps st0.
Proof.
  intros Ga Gb Hm. cbn [matches] in Hm.
  destruct Hm as (m & (m1 & H1 & ->) & (m2 & H2 & ->)).
  destruct (matches_moved _ _ _ _ H1) as (t1 & M1).
  destruct (matches_moved _ _ _ _ H2) as (t2 & M2).
  pose proof (matches_group_free _ _ Ga _ _ H1) as C1.
  pose proof (matches_group_free _ _ Gb _ _ H2) as C2.
  cbn [caps] in C2.
  exists t1, t2. split.
  - destruct M1 as [A1 B1]. destruct M2 as [A2 B2]. cbn [before after] in *.
    split; cbn [before after].
    + rewrite A1, A2, app_assoc. reflexivity.
    + rewrite B2, B1, rev_app_distr, app_assoc. reflexivity.
  - cbn [caps].
    rewrite (@consumed_of_before t2 _ m2 (proj2 M2)).
    rewrite C2, C1, (moved_consumed M1). reflexivity.
Qed.

Lemma repl_keeps_two_groups (bef aft : str) (st : mstate) (t1 t2 : str) :
  moved (t1 ++ t2) (MState bef aft []) st ->
  caps st = [(2%nat, t2); (1%nat, t1)] ->
  remove_ws (repl_1_sp_2 (obj_of bef st)) = remove_ws (m_text (obj_of bef st)).
Proof.
  intros [_ Hb] Hc. cbn [before] in Hb.
  unfold repl_1_sp_2, obj_of. cbn [m_caps m_text]. rewrite Hc.
  rewrite (@consumed_of_before (t1 ++ t2) (MState bef [] []) st Hb).
  cbn [group Nat.eqb]. unfold remove_ws. rewrite !filter_app. reflexivity.
Qed.

Lemma sub_lower_upper_keeps (s : str) :
  remove_ws (re_sub false re_lower_upper repl_1_sp_2 s) = remove_ws s.
Proof.
  apply re_sub_keeps_non_space. intros bef aft st Hm _.
  apply seq_two_groups in Hm; [ | reflexivity | reflexivity ].
  destruct Hm as (t1 & t2 & Hmv & Hc).
  eapply repl_keeps_two_groups; eassumption.
Qed.

Lemma sub_glued_particle_keeps (s : str) :
  remove_ws (re_sub true re_glued_particle repl_1_sp_2 s) = remove_ws s.
Proof.
  apply re_sub_keeps_non_space. intros bef aft st Hm _.
  unfold re_glued_particle in Hm. cbn [rseq] in Hm.
  cbn [matches] in Hm. destruct Hm as (m & (_ & ->) & Hm).
  change (exists m : mstate, _) with
    (matches true (RSeq (RGroup 1 (rwords [ "of"; "and"; "the"; "for"; "in"; "at"; "to";
                                             "with"; "from"; "by"; "de"; "la"; "le";
                                             "des"; "du" ]%string))
                        (RGroup 2 rupper)) (MState bef aft []) st) in Hm.
  apply seq_two_groups in Hm; [ | reflexivity | reflexivity ].
  destruct Hm as (t1 & t2 & Hmv & Hc).
  eapply repl_keeps_two_groups; eassumption.
Qed.

Lemma sub_of_article_keeps (s : str) :
  remove_ws (re_sub true re_of_article repl_1_sp_2 s) = remove_ws s.
Proof.
  apply re_sub_keeps_non_space. intros bef aft st Hm _.
  unfold re_of_article in Hm. cbn [rseq] in Hm.
  assert (Hm' : matches true (RSeq (RGroup 1 (rlit "of"))
                                   (RGroup 2 (rwords ["the"; "a"; "an"]%string)))
                        (MState bef aft []) st).
  { cbn [matches] in Hm.
    destruct Hm as (m & (_ & ->) & (m1 & H1 & (m2 & H2 & (_ & ->)))).
    cbn [matches]. exists m1. split; [ exact H1 | exact H2 ]. }
  apply seq_two_groups in Hm'; [ | reflexivity | reflexivity ].
  destruct Hm' as (t1 & t2 & Hmv & Hc).
  eapply repl_keeps_two_groups; eassumption.
Qed.

Lemma remove_ws_lstrip (s : str) : remove_ws (lstrip_by is_space s) = remove_ws s.
Proof.
  induction s as [|c r IH]; [ reflexivity | ].
  cbn [lstrip_by]. unfold remove_ws in *. cbn [filter].
  destruct (is_space c) eqn:E; [ exact IH | ].
  cbn [filter negb]. rewrite E. reflexivity.
Qed.

Lemma remove_ws_rstrip (s : str) : remove_ws (rstrip_by is_space s) = remove_ws s.
Proof.
  induction s as [|c r IH]; [ reflexivity | ].
  cbn [rstrip_by]. unfold remove_ws in *. cbn [filter].
  destruct (rstrip_by is_space r) as [|c' r'].
  - rewrite <- IH. destruct (is_space c) eqn:E; cbn [filter negb];
      [ | rewrite E ]; reflexivity.
  - cbn [filter] in *. rewrite <- IH. reflexivity.
Qed.

Lemma remove_ws_strip (s : str) : remove_ws (strip s) = remove_ws s.
Proof.
  unfold strip, strip_by. rewrite remove_ws_rstrip. apply remove_ws_lstrip.
Qed.

(** X6: The repair only adds or removes whitespace: the characters that are no
    whitespace are the same, in the same order, before and after it. *)
Theorem fix_merged_text_keeps_characters (text : str) :
  remove_ws (fix_merged_text text) = remove_ws text.
Proof.
  unfold fix_merged_text. destruct text as [|c r]; [ reflexivity | ].
  set (t := strip (c :: r)).
  assert (Ht : remove_ws t = remove_ws (c :: r)) by apply remove_ws_strip.
  destruct (3 <=? length (split_ws t))%nat; [ exact Ht | ].
  destruct ((15 <? length t)%nat && (length (split_ws t) <=? 2)%nat).
  - rewrite sub_of_article_keeps, sub_glued_particle_keeps, sub_lower_upper_keeps.
    exact Ht.
  - destruct ((length (split_ws t) =? 1)%nat && (10 <? length t)%nat);
      [ rewrite sub_lower_upper_keeps | ]; exact Ht.
Qed.

(** ** The tokenizer *)

Lemma star_set_run (ic : bool) (items : list cset) (st st' : mstate) :
  clos_refl_trans_1n mstate (matches ic (RSet items)) st st' ->
  exists t, moved t st st' /\
            forallb (fun c => existsb (fun it => cset_matches ic it c) items) t = true.
Proof.
  intros H. induction H as [st | st m st' H1 _ IH].
  - exists []. split; [ apply moved_refl | reflexivity ].
  - cbn [matches] in H1. destruct H1 as (c & rest & Ha & Hc & ->).
    destruct IH as (t & Hm & Ht). exists (c :: t). split.
    + destruct Hm as [A B]. cbn [before after] in *. split.
      * rewrite Ha, A. reflexivity.
      * rewrite B. cbn [rev]. rewrite <- app_assoc. reflexivity.
    + cbn [forallb]. rewrite Hc, Ht. reflexivity.
Qed.

Lemma plus_set_run (ic : bool) (items : list cset) (st st' : mstate) :
  matches ic (rplus (RSet items)) st st' ->
  exists t, t <> [] /\ moved t st st' /\
            forallb (fun c => existsb (fun it => cset_matches ic it c) items) t = true.
Proof.
  unfold rplus. cbn [matches]. intros (m & (c & rest & Ha & Hc & ->) & Hs).
  apply star_set_run in Hs. destruct Hs as (t & Hm & Ht).
  exists (c :: t). split; [ discriminate | split ].
  - destruct Hm as [A B]. cbn [before after] in *. split.
    + rewrite Ha, A. reflexivity.
    + rewrite B. cbn [rev]. rewrite <- app_assoc. reflexivity.
  - cbn [forallb]. rewrite Hc, Ht. reflexivity.
Qed.

Lemma existsb_lit (c : Z) (l : str) :
  existsb (fun it => cset_matches false it c) (map CLit l) = true -> In c l.
Proof.
  induction l as [|x l IH]; cbn [map existsb cset_matches]; [ discriminate | ].
  intros H. apply orb_prop in H. destruct H as [H | H].
  - left. symmetry. apply Z.eqb_eq, H.
  - right. apply IH, H.
Qed.

Lemma set_single (items : list cset) (st st' : mstate) :
  matches false (RSet items) st st' ->
  exists c, moved [c] st st' /\
            existsb (fun it => cset_matches false it c) items = true.
Proof.
  cbn [matches]. intros (c & rest & Ha & Hc & ->).
  exists c. split; [ split; [ exact Ha | reflexivity ] | exact Hc ].
Qed.

Lemma forallb_same (f g : Z -> bool) (l : str) :
  (forall c, f c = g c) -> forallb f l = forallb g l.
Proof.
  intros H. induction l as [|c l IH]; cbn [forallb]; [ reflexivity | ].
  rewrite H, IH. reflexivity.
Qed.

Lemma token_match_ok (bef aft : str) (st : mstate) :
  matches false re_token (MState bef aft []) st ->
  token_ok (m_text (obj_of bef st)).
Proof.
  intros Hm. unfold re_token in Hm. cbn [ralt] in Hm.
  assert (Htext : forall t, moved t (MState bef aft []) st ->
                            m_text (obj_of bef st) = t).
  { intros t [_ Hb]. cbn [before] in Hb. unfold obj_of. cbn [m_text].
    apply (@consumed_of_before t (MState bef [] []) st Hb). }
  cbn [matches] in Hm. destruct Hm as [Hm | [Hm | [Hm | Hm]]].
  - apply plus_set_run in Hm. destruct Hm as (t & Hne & Hmv & Hall).
    rewrite (Htext _ Hmv). split; [ exact Hne | left ].
    rewrite <- Hall. apply forallb_same. intros c.
    unfold is_letter. cbn [existsb cset_matches andb]. rewrite !orb_false_r.
    rewrite orb_assoc. reflexivity.
  - apply plus_set_run in Hm. destruct Hm as (t & Hne & Hmv & Hall).
    rewrite (Htext _ Hmv). split; [ exact Hne | right; left ].
    rewrite <- Hall. apply forallb_same. intros c.
    unfold is_ascii_digit. cbn [existsb cset_matches andb]. rewrite !orb_false_r.
    reflexivity.
  - change (matches false (RSet (map CLit SUPS)) (MState bef aft []) st) in Hm.
    apply set_single in Hm. destruct Hm as (c & Hmv & Hc).
    rewrite (Htext _ Hmv). split; [ discriminate | right; right; left ].
    exists c. split; [ reflexivity | apply existsb_lit, Hc ].
  - change (matches false (RSet (map CLit (u ",.*∗⁎"))) (MState bef aft []) st) in Hm.
    apply set_single in Hm. destruct Hm as (c & Hmv & Hc).
    rewrite (Htext _ Hmv). split; [ discriminate | right; right; right ].
    exists c. split; [ reflexivity | apply existsb_lit, Hc ].
Qed.

Lemma extract_tokens_ok (lines : list Line) :
  Forall token_ok (extract_tokens_from_lines lines).
Proof.
  apply Forall_forall. intros tok Hin.
  unfold extract_tokens_from_lines in Hin.
  apply in_flat_map in Hin. destruct Hin as (li & _ & Hin).
  unfold re_findall, re_scan in Hin.
  apply in_flat_map in Hin. destruct Hin as (x & Hx & Hin).
  destruct x as [t | o]; [ destruct Hin | ].
  destruct Hin as [<- | []].
  apply scan_matches in Hx. destruct Hx as (bef' & aft' & st & Hm & -> & _).
  apply (token_match_ok Hm).
Qed.

(** X7: Every token of the author lines is not empty and of one kind: letters
    only, ASCII digits only, one superscript digit, or one of the signs
    comma, full stop and the three asterisks. *)
Theorem extract_tokens_kinds (lines : list Line) (tok : str) :
  In tok (extract_tokens_from_lines lines) -> token_ok tok.
Proof.
  intros Hin. pose proof (extract_tokens_ok lines) as H.
  rewrite Forall_forall in H. apply H, Hin.
Qed.

Lemma extract_tokens_kinds_witness :
  In (u "Doe") (extract_tokens_from_lines example_author_lines) /\
  token_ok (u "Doe").
Proof.
  assert (H : In (u "Doe") (extract_tokens_from_lines example_author_lines))
    by (vm_compute; auto).
  split; [ exact H | exact (@extract_tokens_kinds _ _ H) ].
Defined.

(** ** Authors of the marker path *)

Lemma insert_str_perm (x : str) (l : list str) :
  Permutation (x :: l) (insert_str x l).
Proof.
  induction l as [|h t IH]; cbn [insert_str]; [ apply Permutation_refl | ].
  destruct (str_leb x h); [ apply Permutation_refl | ].
  eapply perm_trans; [ apply perm_swap | apply perm_skip, IH ].
Qed.

Lemma sorted_strs_perm (l : list str) : Permutation l (sorted_strs l).
Proof.
  induction l as [|x l IH]; cbn [sorted_strs fold_right]; [ constructor | ].
  eapply perm_trans; [ apply perm_skip, IH | apply insert_str_perm ].
Qed.

Lemma str_leb_total (a : str) : forall b, str_leb a b = false -> str_leb b a = true.
Proof.
  induction a as [|x a IH]; intros b H; [ discriminate H | ].
  destruct b as [|y b]; [ reflexivity | ].
  cbn [str_leb] in *.
  destruct (Z.ltb_spec x y); [ discriminate H | ].
  destruct (Z.ltb_spec y x); [ reflexivity | ].
  apply IH, H.
Qed.

Lemma insert_str_sorted (x : str) (l : list str) :
  Sorted str_le l -> Sorted str_le (insert_str x l).
Proof.
  induction l as [|h t IH]; intros Hs; cbn [insert_str].
  - constructor; constructor.
  - destruct (str_leb x h) eqn:E.
    + constructor; [ exact Hs | constructor; exact E ].
    + apply str_leb_total in E. inversion Hs as [|? ? Ht Hhd]; subst.
      constructor; [ apply IH, Ht | ].
      destruct t as [|h' t']; cbn [insert_str].
      * constructor. exact E.
      * destruct (str_leb x h'); constructor; [ exact E | ].
        inversion Hhd; subst. assumption.
Qed.

Lemma sorted_strs_sorted (l : list str) : Sorted str_le (sorted_strs l).
Proof.
  induction l as [|x l IH]; cbn [sorted_strs fold_right]; [ constructor | ].
  apply insert_str_sorted, IH.
Qed.

Lemma existsb_str_eqb (x : str) (s : list str) :
  existsb (str_eqb x) s = true <-> In x s.
Proof.
  rewrite existsb_exists. split.
  - intros (y & Hy & E). apply str_eqb_eq in E. subst. exact Hy.
  - intros H. exists x. split; [ exact H | apply str_eqb_eq; reflexivity ].
Qed.

Lemma set_add_ok (P : str -> Prop) (x : str) (s : list str) :
  P x -> Forall P s -> NoDup s ->
  Forall P (set_add x s) /\ NoDup (set_add x s).
Proof.
  intros Hx Hs Hn. unfold set_add.
  destruct (existsb (str_eqb x) s) eqn:E; [ auto | ].
  split.
  - apply Forall_app. auto.
  - apply NoDup_app; [ exact Hn | repeat constructor; intros [] | ].
    intros y Hy [<- | []].
    apply existsb_str_eqb in Hy. congruence.
Qed.

Lemma fullmatch_matches (ic : bool) (r : regex) (s : str) :
  re_fullmatch ic r s = true ->
  exists st', matches ic r (MState [] s []) st' /\ after st' = [].
Proof.
  unfold re_fullmatch.
  match goal with
  | |- context [rmatch ic r ?st ?k] => destruct (rmatch ic r st k) as [x|] eqn:E
  end; [ intros _ | discriminate ].
  apply rmatch_sound in E. destruct E as (st' & Hm & Hk).
  exists st'. split; [ exact Hm | ].
  destruct (after st'); [ reflexivity | discriminate Hk ].
Qed.

Lemma fullmatch_lower (tok : str) :
  re_fullmatch false rlower tok = true ->
  exists c, tok = [c] /\ is_ascii_lower c = true.
Proof.
  intros H. apply fullmatch_matches in H. destruct H as (st' & Hm & Ha).
  apply set_single in Hm. destruct Hm as (c & [Hmv _] & Hc).
  cbn [after] in Hmv. rewrite Ha in Hmv. exists c. split; [ exact Hmv | ].
  cbn [existsb cset_matches andb] in Hc. rewrite !orb_false_r in Hc. exact Hc.
Qed.

Lemma fullmatch_digits (tok : str) :
  re_fullmatch false (rplus (RSet [CRange 48 57])) tok = true ->
  tok <> [] /\ forallb is_ascii_digit tok = true.
Proof.
  intros H. apply fullmatch_matches in H. destruct H as (st' & Hm & Ha).
  apply plus_set_run in Hm. destruct Hm as (t & Hne & [Hmv _] & Hall).
  cbn [after] in Hmv. rewrite Ha, app_nil_r in Hmv. subst t.
  split; [ exact Hne | ].
  rewrite <- Hall. apply forallb_same. intros c.
  unfold is_ascii_digit. cbn [existsb cset_matches andb]. rewrite !orb_false_r.
  reflexivity.
Qed.

Lemma starts_with_In (p s : str) :
  starts_with p s = true -> forall c, In c p -> In c s.
Proof.
  revert s. induction p as [|a p IH]; intros s H c Hc; [ destruct Hc | ].
  destruct s as [|b s]; [ discriminate H | ].
  cbn [starts_with] in H. apply andb_prop in H. destruct H as [E H].
  apply Z.eqb_eq in E. subst b.
  destruct Hc as [<- | Hc]; [ left; reflexivity | right; apply (IH _ H _ Hc) ].
Qed.

Lemma contains_In (p s : str) :
  contains p s = true -> forall c, In c p -> In c s.
Proof.
  induction s as [|b s IH]; cbn [contains]; intros H c Hc.
  - rewrite orb_false_r in H. apply (starts_with_In _ _ H _ Hc).
  - apply orb_prop in H. destruct H as [H | H].
    + apply (starts_with_In _ _ H _ Hc).
    + right. apply (IH H _ Hc).
Qed.

Lemma translate_sups_digits (tok : str) :
  (forall c, In c tok -> In c SUPS) ->
  forallb is_ascii_digit (translate SUPS DIGITS tok) = true.
Proof.
  intros H. unfold translate. induction tok as [|c tok IH]; [ reflexivity | ].
  cbn [map forallb]. rewrite IH by (intros d Hd; apply H; right; exact Hd).
  rewrite andb_true_r.
  specialize (H c (or_introl eq_refl)).
  repeat (destruct H as [<- | H]; [ reflexivity | ]). destruct H.
Qed.

Lemma finalize_author_markers (cur : Cur) :
  Forall marker_ok (cur_markers cur) -> NoDup (cur_markers cur) ->
  Forall marker_ok (markers (finalize_author cur)) /\
  NoDup (markers (finalize_author cur)) /\
  Sorted str_le (markers (finalize_author cur)).
Proof.
  intros Hm Hn. unfold finalize_author. cbn [markers].
  pose proof (sorted_strs_perm (cur_markers cur)) as Hp.
  split; [ | split ].
  - apply Forall_forall. intros m Hin. rewrite Forall_forall in Hm.
    apply Hm. apply (Permutation_in _ (Permutation_sym Hp) Hin).
  - apply (Permutation_NoDup Hp Hn).
  - apply sorted_strs_sorted.
Qed.

Lemma keep_author_ok (a : Author) : keep_author a = true -> author_ok a.
Proof.
  unfold keep_author, author_ok.
  destruct (name a); [ discriminate | ].
  intros H. apply negb_true_iff in H. split; [ discriminate | exact H ].
Qed.

(** What the token loop keeps true of its state. *)
Lemma token_step_inv (state : list Author * Cur) (tok : str) :
  token_ok tok ->
  Forall marked_author_ok (fst state) ->
  Forall marker_ok (cur_markers (snd state)) ->
  NoDup (cur_markers (snd state)) ->
  Forall marked_author_ok (fst (token_step state tok)) /\
  Forall marker_ok (cur_markers (snd (token_step state tok))) /\
  NoDup (cur_markers (snd (token_step state tok))).
Proof.
  destruct state as [authors cur]. cbn [fst snd]. intros Htok Ha Hm Hn.
  unfold token_step.
  destruct (str_eqb tok (u ",")).
  { destruct (is_nil (name_parts cur)); [ cbn [fst snd]; auto | ].
    destruct (keep_author (finalize_author cur)) eqn:Ek; cbn [fst snd empty_cur cur_markers].
    - split; [ | split; constructor ].
      apply Forall_app. split; [ exact Ha | ].
      constructor; [ | constructor ].
      split; [ apply keep_author_ok, Ek | apply finalize_author_markers; assumption ].
    - split; [ exact Ha | split; constructor ]. }
  destruct (existsb (str_eqb tok) [u "*"; u "∗"; u "⁎"]); [ cbn [fst snd cur_markers]; auto | ].
  destruct (re_fullmatch false rlower tok) eqn:E1.
  { cbn [fst snd cur_markers]. split; [ exact Ha | ].
    apply set_add_ok; [ | exact Hm | exact Hn ].
    left. apply fullmatch_lower, E1. }
  destruct (re_fullmatch false (rplus (RSet [CRange 48 57])) tok) eqn:E2.
  { cbn [fst snd cur_markers]. split; [ exact Ha | ].
    apply set_add_ok; [ | exact Hm | exact Hn ].
    right. apply fullmatch_digits, E2. }
  destruct (contains tok SUPS) eqn:E3; cbn [fst snd cur_markers]; [ | auto ].
  split; [ exact Ha | ].
  apply set_add_ok; [ | exact Hm | exact Hn ].
  right. split.
  - destruct Htok as [Hne _]. destruct tok; [ contradiction | discriminate ].
  - apply translate_sups_digits. apply (contains_In _ _ E3).
Qed.

Lemma parse_author_tokens_inv (tokens : list str) :
  Forall token_ok tokens ->
  Forall marked_author_ok (parse_author_tokens tokens).
Proof.
  intros Htok. unfold parse_author_tokens.
  assert (G : forall state,
             Forall marked_author_ok (fst state) ->
             Forall marker_ok (cur_markers (snd state)) ->
             NoDup (cur_markers (snd state)) ->
             let final := fold_left token_step tokens state in
             Forall marked_author_ok (fst final) /\
             Forall marker_ok (cur_markers (snd final)) /\
             NoDup (cur_markers (snd final))).
  { induction Htok as [|tok rest Ht _ IH]; intros state Ha Hm Hn; cbn [fold_left].
    - auto.
    - destruct (token_step_inv state Ht Ha Hm Hn) as (Ha' & Hm' & Hn').
      apply IH; assumption. }
  specialize (G ([], empty_cur)). cbv zeta in G.
  destruct G as (Ha & Hm & Hn); try (cbn; constructor).
  destruct (fold_left token_step tokens ([], empty_cur)) as [authors cur].
  cbn [fst snd] in *.
  destruct (is_nil (name_parts cur)); [ exact Ha | ].
  destruct (keep_author (finalize_author cur)) eqn:Ek; [ | exact Ha ].
  apply Forall_app. split; [ exact Ha | ].
  constructor; [ | constructor ].
  split; [ apply keep_author_ok, Ek | apply finalize_author_markers; assumption ].
Qed.

(** X8: Every author of the marker path has a name that is not empty and that
    the affiliation test lets through; its markers are single lower-case
    ASCII letters or runs of ASCII digits (superscripts are turned into
    digits), in ascending order and without repeats. *)
Theorem parse_authors_with_markers_invariants (author_lines : list Line) (a : Author) :
  In a (parse_authors_with_markers author_lines) ->
  author_ok a /\ Forall marker_ok (markers a) /\
  NoDup (markers a) /\ Sorted str_le (markers a).
Proof.
  intros Hin.
  pose proof (parse_author_tokens_inv (extract_tokens_ok author_lines)) as H.
  rewrite Forall_forall in H. apply (H a Hin).
Qed.

Lemma parse_authors_with_markers_invariants_witness :
  In (mkAuthor (u "Jane Doe") [u "1"; u "a"] true)
     (parse_authors_with_markers [text_line "Jane Doe a ¹ ∗, Bob Stone"]) /\
  Sorted str_le [u "1"; u "a"].
Proof.
  assert (H : In (mkAuthor (u "Jane Doe") [u "1"; u "a"] true)
                 (parse_authors_with_markers [text_line "Jane Doe a ¹ ∗, Bob Stone"]))
    by (vm_compute; auto).
  split; [ exact H | ].
  exact (proj2 (proj2 (proj2 (@parse_authors_with_markers_invariants _ _ H)))).
Defined.

(** ** Authors of the unmarked path and of the page *)

Lemma part_step_inv (state : list Author * str) (p : str) :
  Forall (fun a => author_ok a /\ markers a = []) (fst state) ->
  Forall (fun a => author_ok a /\ markers a = []) (fst (part_step state p)).
Proof.
  destruct state as [authors aff]. cbn [fst]. intros Ha. unfold part_step.
  destruct (is_nil (strip p)); [ exact Ha | ].
  destruct (re_fullmatch false (rplus rdigit) (strip p)); [ exact Ha | ].
  destruct (is_likely_affiliation (strip p)); [ exact Ha | ].
  set (q := fix_merged_text (strip (re_sub false re_star (fun _ => []) (strip p)))).
  destruct (is_likely_affiliation q) eqn:El; [ exact Ha | ].
  destruct (is_nil q) eqn:En; [ exact Ha | ].
  cbn [fst]. apply Forall_app. split; [ exact Ha | ].
  constructor; [ | constructor ]. cbn [name markers]. split; [ | reflexivity ].
  split; [ | exact El ]. destruct q; [ discriminate En | discriminate ].
Qed.

Lemma parse_authors_without_markers_inv (author_text : str) :
  Forall (fun a => author_ok a /\ markers a = [])
         (fst (parse_authors_without_markers author_text)).
Proof.
  unfold parse_authors_without_markers.
  destruct (is_nil (strip author_text)); [ constructor | ].
  destruct (match re_search true AFF_CUES (strip author_text) with
            | Some o => cut_at o (strip author_text)
            | None => (strip author_text, [])
            end) as [text1 aff1].
  destruct (if is_nil aff1
            then match re_search true AFF_CUES_MERGED text1 with
                 | Some o => cut_at o text1
                 | None => (text1, aff1)
                 end
            else (text1, aff1)) as [text2 aff2].
  assert (G : forall parts state,
             Forall (fun a => author_ok a /\ markers a = []) (fst state) ->
             Forall (fun a => author_ok a /\ markers a = [])
                    (fst (fold_left part_step parts state))).
  { induction parts as [|p rest IH]; intros state Hs; cbn [fold_left];
      [ exact Hs | apply IH, part_step_inv, Hs ]. }
  specialize (G (re_split false re_comma (fix_merged_text text2)) ([], aff2)).
  destruct (fold_left part_step (re_split false re_comma (fix_merged_text text2))
                      ([], aff2)) as [authors aff].
  cbn [fst] in *. apply G. constructor.
Qed.

(** X9: Every author of the unmarked path has a name that is not empty and that
    the affiliation test lets through, and carries no marker. *)
Theorem parse_authors_without_markers_invariants (author_text : str) (a : Author) :
  In a (fst (parse_authors_without_markers author_text)) ->
  author_ok a /\ markers a = [].
Proof.
  intros Hin. pose proof (parse_authors_without_markers_inv author_text) as H.
  rewrite Forall_forall in H. apply (H a Hin).
Qed.

Lemma parse_authors_without_markers_invariants_witness :
  In (mkAuthor (u "Jane Doe") [] false)
     (fst (parse_authors_without_markers example_author_text)) /\
  is_likely_affiliation (u "Jane Doe") = false.
Proof.
  assert (H : In (mkAuthor (u "Jane Doe") [] false)
                 (fst (parse_authors_without_markers example_author_text)))
    by (vm_compute; auto).
  split; [ exact H | ].
  exact (proj2 (proj1 (@parse_authors_without_markers_invariants _ _ H))).
Defined.

Lemma resolve_authors_ok (t : str) (has_markers : bool) (author_lines aff_lines : list Line) :
  Forall author_ok (authors (resolve t has_markers author_lines aff_lines)).
Proof.
  unfold resolve. destruct has_markers.
  - cbn [authors]. apply Forall_forall. intros a Hin.
    pose proof (parse_author_tokens_inv (extract_tokens_ok author_lines)) as H.
    rewrite Forall_forall in H. apply (H a Hin).
  - pose proof (parse_authors_without_markers_inv (join_lines author_lines)) as H.
    destruct (parse_authors_without_markers (join_lines author_lines)) as [al ea].
    cbn [authors fst] in *. apply Forall_forall. intros a Hin.
    rewrite Forall_forall in H. apply (H a Hin).
Qed.

(** X10: Whatever the page, no author of the front matter has an empty name or
    a name that the affiliation test takes for an affiliation; this holds
    on both paths. *)
Theorem front_matter_authors_ok (H : Q) (words : list Word) (a : Author) :
  In a (authors (parse_front_matter_page1 H words)) -> author_ok a.
Proof.
  unfold parse_front_matter_page1. cbv zeta.
  destruct (is_nil words); [ intros [] | ].
  destruct (is_nil (top_lines H (cluster_lines words 3 3))); [ intros [] | ].
  destruct (split_zone _) as [[hm al] afl].
  intros Hin. pose proof (resolve_authors_ok
    (fix_merged_text (join_lines (title_lines (top_lines H (cluster_lines words 3 3)))))
    hm al afl) as Hok.
  rewrite Forall_forall in Hok. apply (Hok a Hin).
Qed.

Lemma front_matter_authors_ok_witness :
  In (mkAuthor (u "Jane Doe") [u "a"] false)
     (authors (parse_front_matter_page1 1000 page_glued_key)) /\
  author_ok (mkAuthor (u "Jane Doe") [u "a"] false).
Proof.
  assert (Hin : In (mkAuthor (u "Jane Doe") [u "a"] false)
                   (authors (parse_front_matter_page1 1000 page_glued_key)))
    by (vm_compute; auto).
  split; [ exact Hin | exact (@front_matter_authors_ok _ _ _ Hin) ].
Defined.

(** ** Affiliations of the marker path *)

Lemma affiliations_loop_stop (pre : list Line) (li : Line) (post : list Line) :
  strip (line_text li) <> [] ->
  is_stop_line (strip (line_text li)) = true ->
  forall affs last_key,
    affiliations_loop (pre ++ li :: post) affs last_key
    = affiliations_loop pre affs last_key.
Proof.
  intros Hne Hstop. induction pre as [|l0 pre IH]; intros affs last_key.
  - cbn [app affiliations_loop]. rewrite Hstop.
    destruct (strip (line_text li)); [ contradiction | reflexivity ].
  - cbn [app affiliations_loop].
    destruct (is_nil (strip (line_text l0))); [ apply IH | ].
    destruct (is_stop_line (strip (line_text l0))); [ reflexivity | ].
    destruct (re_match false re_key_space (strip (line_text l0))); [ apply IH | ].
    destruct (re_match false re_key_glued (strip (line_text l0))); [ apply IH | ].
    destruct last_key; apply IH.
Qed.

(** X11: Parsing stops at the first line that is not blank and matches an
    article-info, abstract or stop anchor: that line and all the lines
    after it leave no trace in the result. *)
Theorem parse_affiliations_stops_at_anchor (pre : list Line) (li : Line) (post : list Line) :
  strip (line_text li) <> [] ->
  is_stop_line (strip (line_text li)) = true ->
  parse_affiliations_with_markers (pre ++ li :: post)
  = parse_affiliations_with_markers pre.
Proof.
  intros Hne Hstop. unfold parse_affiliations_with_markers.
  apply affiliations_loop_stop; assumption.
Qed.

Lemma parse_affiliations_stops_at_anchor_witness :
  strip (line_text (text_line "Keywords: grids")) <> [] /\
  is_stop_line (strip (line_text (text_line "Keywords: grids"))) = true /\
  parse_affiliations_with_markers
    [text_line "a Dept of Physics"; text_line "Keywords: grids"; text_line "b Lab"]
  = parse_affiliations_with_markers [text_line "a Dept of Physics"].
Proof.
  assert (H1 : strip (line_text (text_line "Keywords: grids")) <> [])
    by (vm_compute; discriminate).
  assert (H2 : is_stop_line (strip (line_text (text_line "Keywords: grids"))) = true)
    by (vm_compute; reflexivity).
  split; [ exact H1 | split; [ exact H2 | ] ].
  exact (@parse_affiliations_stops_at_anchor
           [text_line "a Dept of Physics"] (text_line "Keywords: grids")
           [text_line "b Lab"] H1 H2).
Defined.

Lemma re_match_matches (ic : bool) (r : regex) (t : str) (m : rmatch_obj) :
  re_match ic r t = Some m ->
  exists st, matches ic r (MState [] t []) st /\ m_caps m = caps st.
Proof.
  unfold re_match. destruct (match_at ic r [] t) as [st|] eqn:E; [ | discriminate ].
  intros H. inversion H; subst m.
  apply match_at_moved in E. destruct E as (Hm & _).
  exists st. split; [ exact Hm | reflexivity ].
Qed.

(** In a pattern that opens with the start of the text, optional
    whitespace and then a lower-case letter as group 1, and goes on with
    [rest] that holds group 2 only, group 1 is that one letter. *)
Lemma key_group (rest : regex) (t : str) (st : mstate) :
  (forall a b, matches false rest a b -> exists v, caps b = (2%nat, v) :: caps a) ->
  matches false (RSeq RBol (RSeq (RStar rspace) (RSeq (RGroup 1 rlower) rest)))
          (MState [] t []) st ->
  key_ok (group 1 (caps st)).
Proof.
  intros Hrest Hm. cbn [matches] in Hm.
  destruct Hm as (m0 & (_ & ->) & (m1 & Hs & (m2 & (m1' & Hl & ->) & Hr))).
  assert (Hc1 : caps m1 = []).
  { change (clos_refl_trans_1n mstate (matches false rspace) (MState [] t []) m1)
      with (matches false (RStar rspace) (MState [] t []) m1) in Hs.
    apply (matches_group_free false (RStar rspace) eq_refl) in Hs. exact Hs. }
  change (exists c rest0, after m1 = c :: rest0 /\ _ /\ m1' = _)
    with (matches false rlower m1 m1') in Hl.
  pose proof (matches_group_free false rlower eq_refl _ _ Hl) as Hc2.
  apply set_single in Hl. destruct Hl as (c & Hmv & Hc).
  apply Hrest in Hr. destruct Hr as (v & Hv). cbn [caps] in Hv.
  rewrite Hv, Hc2, Hc1, (moved_consumed Hmv). cbn [group Nat.eqb].
  exists c. split; [ reflexivity | ].
  cbn [existsb cset_matches andb] in Hc. rewrite !orb_false_r in Hc. exact Hc.
Qed.

Lemma key_space_group (t : str) (m : rmatch_obj) :
  re_match false re_key_space t = Some m -> key_ok (group 1 (m_caps m)).
Proof.
  intros H. apply re_match_matches in H. destruct H as (st & Hm & ->).
  unfold re_key_space in Hm. cbn [rseq] in Hm.
  eapply key_group; [ | exact Hm ].
  intros a b Hab. cbn [matches] in Hab.
  destruct Hab as (m1 & Hp & (m2 & (m3 & Hd & ->) & (_ & ->))).
  change (exists m : mstate, _) with (matches false (rplus rspace) a m1) in Hp.
  pose proof (matches_group_free false (rplus rspace) eq_refl _ _ Hp) as C1.
  change (clos_refl_trans_1n mstate (matches false rdot) m1 m3)
    with (matches false (RStar rdot) m1 m3) in Hd.
  pose proof (matches_group_free false (RStar rdot) eq_refl _ _ Hd) as C2.
  eexists. cbn [caps]. rewrite C2, C1. reflexivity.
Qed.

Lemma key_glued_group (t : str) (m : rmatch_obj) :
  re_match false re_key_glued t = Some m -> key_ok (group 1 (m_caps m)).
Proof.
  intros H. apply re_match_matches in H. destruct H as (st & Hm & ->).
  unfold re_key_glued in Hm. cbn [rseq] in Hm.
  eapply key_group; [ | exact Hm ].
  intros a b Hab. cbn [matches] in Hab.
  destruct Hab as (m2 & (m3 & Hd & ->) & (_ & ->)).
  change (exists m : mstate, _)
    with (matches false (RSeq rupper (RSeq rdot (RStar (rchar 32)))) a m3) in Hd.
  pose proof (matches_group_free false
                (RSeq rupper (RSeq rdot (RStar (rchar 32)))) eq_refl _ _ Hd) as C.
  eexists. cbn [caps]. rewrite C. reflexivity.
Qed.

Lemma dict_set_keys_in (k v : str) (d : Affiliations) (x : str) :
  In x (map fst (dict_set k v d)) -> x = k \/ In x (map fst d).
Proof.
  induction d as [|[k' v'] d IH]; cbn [dict_set map fst In].
  - intros [<- | []]. left. reflexivity.
  - destruct (str_eqb k' k) eqn:E; cbn [map fst In].
    + intros [<- | H]; [ left; reflexivity | right; right; exact H ].
    + intros [<- | H]; [ right; left; reflexivity | ].
      destruct (IH H) as [-> | H']; [ left; reflexivity | right; right; exact H' ].
Qed.

Lemma dict_set_keys_nodup (k v : str) (d : Affiliations) :
  NoDup (map fst d) -> NoDup (map fst (dict_set k v d)).
Proof.
  induction d as [|[k' v'] d IH]; cbn [dict_set map fst]; intros Hn.
  - repeat constructor. intros [].
  - inversion Hn as [|? ? Hnot Hrest]; subst.
    destruct (str_eqb k' k) eqn:E; cbn [map fst].
    + apply str_eqb_eq in E. subst k'. constructor; assumption.
    + constructor; [ | apply IH, Hrest ].
      intros Hin. apply dict_set_keys_in in Hin. destruct Hin as [-> | Hin].
      * assert (str_eqb k k = true) by (apply str_eqb_eq; reflexivity). congruence.
      * contradiction.
Qed.

Lemma dict_set_keys_ok (k v : str) (d : Affiliations) :
  key_ok k -> Forall key_ok (map fst d) -> Forall key_ok (map fst (dict_set k v d)).
Proof.
  intros Hk Hd. apply Forall_forall. intros x Hx.
  apply dict_set_keys_in in Hx. destruct Hx as [-> | Hx]; [ exact Hk | ].
  rewrite Forall_forall in Hd. apply Hd, Hx.
Qed.

Lemma affiliations_loop_keys (aff_lines : list Line) :
  forall affs last_key,
    Forall key_ok (map fst affs) -> NoDup (map fst affs) ->
    (forall k, last_key = Some k -> key_ok k) ->
    Forall key_ok (map fst (affiliations_loop aff_lines affs last_key)) /\
    NoDup (map fst (affiliations_loop aff_lines affs last_key)).
Proof.
  induction aff_lines as [|li rest IH]; intros affs last_key Hk Hn Hl;
    cbn [affiliations_loop]; [ auto | ].
  destruct (is_nil (strip (line_text li))); [ apply IH; assumption | ].
  destruct (is_stop_line (strip (line_text li))); [ auto | ].
  destruct (re_match false re_key_space (strip (line_text li))) as [m|] eqn:E1.
  { apply key_space_group in E1. apply IH.
    - apply dict_set_keys_ok; assumption.
    - apply dict_set_keys_nodup, Hn.
    - intros k Hk'. inversion Hk'; subst. exact E1. }
  destruct (re_match false re_key_glued (strip (line_text li))) as [m2|] eqn:E2.
  { apply key_glued_group in E2. apply IH.
    - apply dict_set_keys_ok; assumption.
    - apply dict_set_keys_nodup, Hn.
    - intros k Hk'. inversion Hk'; subst. exact E2. }
  destruct last_key as [k|]; [ | apply IH; assumption ].
  apply IH.
  - apply dict_set_keys_ok; [ apply Hl; reflexivity | exact Hk ].
  - apply dict_set_keys_nodup, Hn.
  - exact Hl.
Qed.

(** X12: The keys of the affiliations of the marker path are single lower-case
    ASCII letters, each present once; in particular the key "all" of the
    unmarked path never shows up there. *)
Theorem parse_affiliations_keys_ok (aff_lines : list Line) :
  Forall key_ok (map fst (parse_affiliations_with_markers aff_lines)) /\
  NoDup (map fst (parse_affiliations_with_markers aff_lines)) /\
  ~ In (u "all") (map fst (parse_affiliations_with_markers aff_lines)).
Proof.
  unfold parse_affiliations_with_markers.
  destruct (@affiliations_loop_keys aff_lines [] None) as (Hk & Hn);
    [ constructor | constructor | discriminate | ].
  split; [ exact Hk | split; [ exact Hn | ] ].
  intros Hin. rewrite Forall_forall in Hk.
  destruct (Hk _ Hin) as (c & E & _). discriminate E.
Qed.

(** ** Keywords and abstract: missing anchors, shape of the result *)

Lemma Forall_of_forallb {A : Type} (p : A -> bool) (l : list A) :
  forallb (fun x => negb (p x)) l = true -> Forall (fun x => p x = false) l.
Proof.
  induction l as [|x l IH]; cbn [forallb]; intros H; constructor.
  - apply andb_prop in H. apply negb_true_iff. apply H.
  - apply IH. apply andb_prop in H. apply H.
Qed.

Lemma find_index_none {A : Type} (p : A -> bool) (l : list A) :
  forall i, Forall (fun x => p x = false) l -> find_index p l i = None.
Proof.
  induction l as [|x l IH]; intros i Hall; [ reflexivity | ].
  inversion Hall as [|? ? Hx Hl]; subst. cbn [find_index]. rewrite Hx.
  apply IH, Hl.
Qed.

(** X13: Without a keywords anchor on a line that is no banner the keywords are
    the empty string, and without an abstract anchor the abstract is the
    empty string, whatever else the lines hold. *)
Theorem extract_kw_abs_missing_anchor (lines : list Line) :
  (Forall (fun li => found RE_KEYWORDS_HDR (line_text li) = false) (clean_lines lines) ->
   fst (extract_kw_abs_from_lines lines) = []) /\
  (Forall (fun li => found RE_ABS_HDR (line_text li) = false) (clean_lines lines) ->
   snd (extract_kw_abs_from_lines lines) = []).
Proof.
  unfold extract_kw_abs_from_lines, clean_lines. cbv zeta. cbn [fst snd].
  split; intros Hall.
  - rewrite (find_index_none _ 0 Hall). reflexivity.
  - rewrite (find_index_none (fun li => found RE_ABS_HDR (line_text li)) 0 Hall).
    reflexivity.
Qed.

Lemma extract_kw_abs_missing_anchor_witness :
  Forall (fun li => found RE_KEYWORDS_HDR (line_text li) = false)
         (clean_lines [text_line "Abstract"; text_line "We propose..."]) /\
  fst (extract_kw_abs_from_lines [text_line "Abstract"; text_line "We propose..."]) = [].
Proof.
  assert (H : Forall (fun li => found RE_KEYWORDS_HDR (line_text li) = false)
                     (clean_lines [text_line "Abstract"; text_line "We propose..."])).
  { apply Forall_of_forallb. vm_compute. reflexivity. }
  split; [ exact H | ].
  exact (proj1 (extract_kw_abs_missing_anchor
                  [text_line "Abstract"; text_line "We propose..."]) H).
Defined.

Lemma spaced_collapse (s : str) : forall b, spaced b (collapse_aux b s).
Proof.
  induction s as [|c r IH]; intros b; [ exact I | ].
  cbn [collapse_aux]. destruct (is_space c) eqn:Ec.
  - destruct b; [ apply IH | ].
    cbn [spaced]. change (is_space 32) with true. cbv iota.
    split; [ reflexivity | split; [ reflexivity | apply IH ] ].
  - cbn [spaced]. rewrite Ec. apply IH.
Qed.

Lemma collapse_spaced (s : str) : forall b, spaced b s -> collapse_aux b s = s.
Proof.
  induction s as [|c r IH]; intros b H; [ reflexivity | ].
  cbn [spaced] in H. cbn [collapse_aux]. destruct (is_space c).
  - destruct H as (-> & -> & H). rewrite (IH _ H). reflexivity.
  - rewrite (IH _ H). reflexivity.
Qed.

Lemma spaced_weaken (s : str) : spaced true s -> spaced false s.
Proof.
  destruct s as [|c r]; [ auto | ]. cbn [spaced].
  destruct (is_space c); [ intros (E & _); discriminate E | auto ].
Qed.

Lemma spaced_lstrip (s : str) :
  forall b, spaced b s -> spaced false (lstrip_by is_space s).
Proof.
  induction s as [|c r IH]; intros b H; [ exact I | ].
  cbn [lstrip_by]. cbn [spaced] in H. destruct (is_space c) eqn:Ec.
  - destruct H as (_ & _ & H). apply (IH _ H).
  - cbn [spaced]. rewrite Ec. exact H.
Qed.

Lemma spaced_rstrip (s : str) :
  forall b, spaced b s -> spaced b (rstrip_by is_space s).
Proof.
  induction s as [|c r IH]; intros b H; [ exact I | ].
  cbn [rstrip_by]. cbn [spaced] in H.
  destruct (is_space c) eqn:Ec.
  - destruct H as (-> & -> & H). specialize (IH _ H).
    destruct (rstrip_by is_space r) as [|c' r']; [ exact I | ].
    cbn [spaced]. change (is_space 32) with true. cbv iota. auto.
  - specialize (IH _ H).
    destruct (rstrip_by is_space r) as [|c' r'];
      cbn [spaced]; rewrite Ec; [ exact I | exact IH ].
Qed.

(** The other order of the two steps gives a text of the same shape. *)
Lemma strip_collapse_tidy (s : str) :
  strip (strip (collapse_ws s)) = strip (collapse_ws s) /\
  collapse_ws (strip (collapse_ws s)) = strip (collapse_ws s).
Proof.
  split; [ apply strip_idem | ].
  unfold collapse_ws at 1. apply collapse_spaced.
  unfold strip, strip_by. apply spaced_rstrip.
  apply (spaced_lstrip _ false). apply spaced_collapse.
Qed.

Lemma span_text_tidy (r : regex) (stop : str -> bool) (span : list Line) :
  strip (span_text r stop span) = span_text r stop span /\
  collapse_ws (span_text r stop span) = span_text r stop span.
Proof.
  unfold span_text. destruct span as [|first rest]; [ split; reflexivity | ].
  destruct (header_rest r (line_text first) ++ span_texts stop rest);
    [ split; reflexivity | apply strip_collapse_tidy ].
Qed.

(** X14: Both strings that the extractor returns are whitespace-normalized:
    nothing to strip at the ends, and no whitespace but single spaces. *)
Theorem extract_kw_abs_tidy (lines : list Line) :
  let r := extract_kw_abs_from_lines lines in
  (strip (fst r) = fst r /\ collapse_ws (fst r) = fst r) /\
  (strip (snd r) = snd r /\ collapse_ws (snd r) = snd r).
Proof.
  unfold extract_kw_abs_from_lines. cbv zeta. cbn [fst snd]. split.
  - destruct (find_index _ _ 0) as [k|]; [ apply span_text_tidy | split; reflexivity ].
  - destruct (find_index (fun li => found RE_ABS_HDR (line_text li)) _ 0) as [a|];
      [ apply span_text_tidy | split; reflexivity ].
Qed.

(** ** The work queue *)

Lemma timeout_step_name (files seen : list str) (line : str) :
  timeout_step (files, seen) line
  = match timeout_name line with
    | Some fn =>
        if existsb (str_eqb fn) seen then (files, seen)
        else (files ++ [fn], set_add fn seen)
    | None => (files, seen)
    end.
Proof.
  unfold timeout_step, timeout_name.
  destruct (is_nil (strip line)); [ reflexivity | ].
  destruct (negb (contains (u "TIMEOUT>90s") (strip line))); [ reflexivity | ].
  destruct (split_on 9 (strip line)) as [|p0 [|p1 rest]]; [ reflexivity | reflexivity | ].
  cbn [length Nat.ltb Nat.leb nth].
  destruct (ends_with (u ".pdf") (lower (strip p1))); cbn [andb]; [ | reflexivity ].
  destruct (existsb (str_eqb (strip p1)) seen); reflexivity.
Qed.

Lemma timeout_loop_inv (lines : list str) :
  forall files seen,
    NoDup files ->
    (forall x, In x seen <-> In x files) ->
    let final := fst (fold_left timeout_step lines (files, seen)) in
    NoDup final /\
    (forall fn, In fn final <->
                In fn files \/ exists line, In line lines /\ timeout_name line = Some fn).
Proof.
  induction lines as [|line rest IH]; intros files seen Hn Hs; cbn [fold_left].
  - cbn [fst]. split; [ exact Hn | ].
    intros fn. split; [ auto | intros [H | (l & [] & _)]; exact H ].
  - rewrite timeout_step_name.
    destruct (timeout_name line) as [fn0|] eqn:Ec.
    + destruct (existsb (str_eqb fn0) seen) eqn:Ex.
      * destruct (IH files seen Hn Hs) as (Hn' & Hin'). split; [ exact Hn' | ].
        intros fn. rewrite Hin'. split.
        -- intros [H | (l & Hl & E)]; [ auto | right; exists l; split; [ right | ]; auto ].
        -- intros [H | (l & [<- | Hl] & E)]; [ auto | | right; exists l; auto ].
           left. rewrite Ec in E. inversion E; subst fn.
           apply Hs. apply existsb_str_eqb, Ex.
      * assert (Hnot : ~ In fn0 files).
        { intros Hin. apply Hs in Hin. apply existsb_str_eqb in Hin. congruence. }
        assert (Hn2 : NoDup (files ++ [fn0])).
        { apply NoDup_app; [ exact Hn | repeat constructor; intros [] | ].
          intros y Hy [<- | []]. contradiction. }
        assert (Hs2 : forall x, In x (set_add fn0 seen) <-> In x (files ++ [fn0])).
        { intros x. unfold set_add. rewrite Ex, !in_app_iff, Hs. reflexivity. }
        destruct (IH _ _ Hn2 Hs2) as (Hn' & Hin'). split; [ exact Hn' | ].
        intros fn. rewrite Hin', in_app_iff. split.
        -- intros [[H | [<- | []]] | (l & Hl & E)].
           ++ auto.
           ++ right. exists line. split; [ left; reflexivity | exact Ec ].
           ++ right. exists l. split; [ right; exact Hl | exact E ].
        -- intros [H | (l & [<- | Hl] & E)].
           ++ auto.
           ++ left. right. left. congruence.
           ++ right. exists l. auto.
    + destruct (IH files seen Hn Hs) as (Hn' & Hin'). split; [ exact Hn' | ].
      intros fn. rewrite Hin'. split.
      * intros [H | (l & Hl & E)]; [ auto | right; exists l; split; [ right | ]; auto ].
      * intros [H | (l & [<- | Hl] & E)]; [ auto | congruence | right; exists l; auto ].
Qed.

(** X15: The work queue read from an existing log lists each file name once, and
    a name is listed exactly when some line of the log stands for it: a
    line with the time-out mark whose second tab-separated field, stripped,
    ends in .pdf in any case. *)
Theorem load_timeout_filenames_queue (lines : list str) :
  exists files,
    load_timeout_filenames (Some lines) = Some files /\
    NoDup files /\
    (forall fn, In fn files <->
                exists line, In line lines /\ timeout_name line = Some fn).
Proof.
  unfold load_timeout_filenames. eexists. split; [ reflexivity | ].
  destruct (@timeout_loop_inv lines [] []) as (Hn & Hin);
    [ constructor | intros x; reflexivity | ].
  split; [ exact Hn | ].
  intros fn. rewrite Hin. split; [ intros [[] | H]; exact H | auto ].
Qed.

Lemma load_timeout_filenames_example :
  load_timeout_filenames (Some example_log) = Some [u "a.pdf"; u "C.PDF"].
Proof. vm_compute. reflexivity. Qed.

(** ** The record of a page *)

(** X16: A page that gives no line (no word at all, or words that are only
    whitespace) yields a record whose fields, the file name apart, are all
    empty strings. *)
Theorem page_record_no_lines (fn : str) (H : Q) (words : list Word) :
  cluster_lines words 3 3 = [] ->
  page_record fn H words = mkOutRecord fn [] [] [] [] [].
Proof.
  intros Hl. unfold page_record, parse_front_matter_page1. rewrite Hl.
  destruct (is_nil words); reflexivity.
Qed.

Lemma page_record_no_lines_witness :
  cluster_lines [blank_word] 3 3 = [] /\
  page_record (u "x.pdf") 800 [blank_word] = mkOutRecord (u "x.pdf") [] [] [] [] [].
Proof.
  assert (Hl : cluster_lines [blank_word] 3 3 = []) by (vm_compute; reflexivity).
  split; [ exact Hl | exact (page_record_no_lines (u "x.pdf") 800 [blank_word] Hl) ].
Defined.

(** ** The split point, when there is one *)

(** X17: When the scan finds a split point at index [k], the author block is
    the [k] lines before it, none of which is a split line, the
    affiliation block starts with the split line itself, and the two blocks
    together are the zone. *)
Theorem split_zone_cut (zone : list Line) (k : nat) (m : bool) :
  find_aff_start zone 0 = Some (k, m) ->
  split_zone zone = (m, firstn k zone, skipn k zone) /\
  firstn k zone ++ skipn k zone = zone /\
  Forall (fun li => is_split_line li = false) (firstn k zone) /\
  exists li rest, skipn k zone = li :: rest /\ is_split_line li = true.
Proof.
  intros Hf. unfold split_zone. rewrite Hf.
  destruct (find_aff_start_some _ _ Hf) as (li & Hn & Hs & _ & Hall).
  rewrite Nat.sub_0_r in Hn, Hall.
  split; [ reflexivity | split; [ apply firstn_skipn | split; [ exact Hall | ] ] ].
  exists li. clear Hf Hall. revert zone Hn.
  induction k as [|k IH]; intros zone Hn; destruct zone as [|l0 zone];
    try discriminate Hn.
  - inversion Hn; subst. exists zone. auto.
  - apply (IH zone Hn).
Qed.

Lemma split_zone_cut_witness :
  find_aff_start example_zone_cue 0 = Some (1%nat, false) /\
  split_zone example_zone_cue
  = ( false,
      [text_line "Jane Doe, Bob Stone"],
      [text_line "Department of Physics"; text_line "12 Elm Road"] ).
Proof.
  assert (H : find_aff_start example_zone_cue 0 = Some (1%nat, false))
    by (vm_compute; reflexivity).
  split; [ exact H | exact (proj1 (split_zone_cut _ H)) ].
Defined.

(** ** The header cutoff *)





(** ** The zone lies below the title *)

Lemma strongly_sorted_prefix {A : Type} (R : A -> A -> Prop) (l1 l2 : list A) :
  StronglySorted R (l1 ++ l2) -> StronglySorted R l1.
Proof.
  induction l1 as [|x l1 IH]; intros Hs; [ constructor | ].
  cbn [app] in Hs. inversion Hs as [|? ? Hrest Hall]; subst.
  constructor; [ apply IH, Hrest | ].
  apply Forall_app in Hall. apply Hall.
Qed.

Lemma strongly_sorted_last (l : list Line) (x : Line) :
  StronglySorted y_le (l ++ [x]) ->
  forall t, In t (l ++ [x]) -> (line_y t <= line_y x)%Q.
Proof.
  induction l as [|h l IH]; intros Hs t Hin; cbn [app] in *.
  - destruct Hin as [<- | []]. lra.
  - inversion Hs as [|? ? Hrest Hall]; subst.
    destruct Hin as [<- | Hin]; [ | apply (IH Hrest t Hin) ].
    rewrite Forall_forall in Hall. apply (Hall x).
    apply in_or_app. right. left. reflexivity.
Qed.

Lemma title_lines_sorted (top : list Line) : StronglySorted y_le (title_lines top).
Proof.
  destruct (@take_title_prefix (title_candidates top)) with (last := @None Q)
    as (rest & E & _).
  { apply Forall_forall. intros li Hin. apply title_candidates_In in Hin. tauto. }
  fold (title_lines top) in E.
  apply (@strongly_sorted_prefix _ y_le (title_lines top) rest).
  rewrite <- E. unfold title_candidates.
  apply (sorted_by_key_sorted line_y).
Qed.

Lemma title_bottom_is_lowest (H : Q) (lines top : list Line) (t : Line) :
  In t (title_lines top) ->
  (line_y t <= title_bottom_y H lines (title_lines top))%Q.
Proof.
  intros Hin. unfold title_bottom_y.
  pose proof (title_lines_sorted top) as Hs.
  destruct (rev (title_lines top)) as [|x r] eqn:E.
  - apply (f_equal (@rev Line)) in E. rewrite rev_involutive in E.
    rewrite E in Hin. destruct Hin.
  - apply (f_equal (@rev Line)) in E. rewrite rev_involutive in E.
    cbn [rev] in E. rewrite E in Hs, Hin.
    apply (@strongly_sorted_last _ _ Hs t Hin).
Qed.

(** X19: The author and affiliation zone lies more than 5 below every line of
    the title: no line is both a title line and a zone line; and every
    zone line is above the bound of the metadata region and is no banner. *)
Theorem zone_below_title (H : Q) (lines : list Line) (t z : Line) :
  let tl := title_lines (top_lines H lines) in
  In t tl ->
  In z (zone_lines H lines tl) ->
  (line_y t + 5 < line_y z)%Q /\ t <> z /\
  In z lines /\ (line_y z < absinfo_y H lines)%Q /\
  is_header_banner (line_text z) = false.
Proof.
  intros tl Ht Hz. unfold zone_lines in Hz.
  apply filter_In in Hz. destruct Hz as (Hin & Hc).
  apply andb_prop in Hc. destruct Hc as (Hc & Hb).
  apply andb_prop in Hc. destruct Hc as (H1 & H2).
  apply Qltb_lt in H1. apply Qltb_lt in H2. apply negb_true_iff in Hb.
  pose proof (@title_bottom_is_lowest H lines (top_lines H lines) t Ht) as Hlow.
  fold tl in Hlow.
  assert (Hlt : (line_y t + 5 < line_y z)%Q) by lra.
  split; [ exact Hlt | split; [ | auto ] ].
  intros ->. lra.
Qed.

Lemma zone_below_title_witness :
  In (mkLine 200 (u "Title") 20)
     (title_lines (top_lines 1000 example_page_lines)) /\
  In (mkLine 250 (u "Jane Doe") 10)
     (zone_lines 1000 example_page_lines
                 (title_lines (top_lines 1000 example_page_lines))) /\
  (200 + 5 < 250)%Q.
Proof.
  assert (Ht : In (mkLine 200 (u "Title") 20)
                  (title_lines (top_lines 1000 example_page_lines)))
    by (vm_compute; left; reflexivity).
  assert (Hz : In (mkLine 250 (u "Jane Doe") 10)
                  (zone_lines 1000 example_page_lines
                              (title_lines (top_lines 1000 example_page_lines))))
    by (vm_compute; left; reflexivity).
  split; [ exact Ht | split; [ exact Hz | ] ].
  exact (proj1 (@zone_below_title 1000 example_page_lines _ _ Ht Hz)).
Defined.

(** ** The bound of the metadata region *)

Lemma find_y_some (r : regex) (lines : list Line) (y : Q) :
  find_y lines r = Some y ->
  exists li, In li lines /\ found r (line_text li) = true /\ y = line_y li.
Proof.
  induction lines as [|l0 rest IH]; cbn [find_y]; [ discriminate | ].
  destruct (found r (line_text l0)) eqn:E.
  - intros Hy. inversion Hy; subst. exists l0. repeat split; auto. left. reflexivity.
  - intros Hy. destruct (IH Hy) as (li & H1 & H2). exists li. split; [ right | ]; auto.
Qed.

Lemma find_y_none (r : regex) (lines : list Line) :
  Forall (fun li => found r (line_text li) = false) lines -> find_y lines r = None.
Proof.
  induction lines as [|l0 rest IH]; intros Hall; [ reflexivity | ].
  inversion Hall as [|? ? H0 Hr]; subst. cbn [find_y]. rewrite H0. apply IH, Hr.
Qed.

(** X20: The bound of the metadata region is 62% of the page height or the [y]
    of a line that carries an article-info or abstract anchor; it is 62% of
    the page height whenever no line carries one. *)
Theorem absinfo_y_bound (H : Q) (lines : list Line) :
  (absinfo_y H lines = (H * (62 # 100))%Q \/
   exists li, In li lines /\ is_anchor_line li = true /\
              absinfo_y H lines = line_y li) /\
  (Forall (fun li => is_anchor_line li = false) lines ->
   absinfo_y H lines = (H * (62 # 100))%Q).
Proof.
  split.
  - rewrite absinfo_y_cases.
    destruct (find_y lines RE_ARTINFO) as [y|] eqn:E1;
      destruct (find_y lines RE_ABS_HDR) as [y'|] eqn:E2;
      try (destruct (Qeq_bool y 0)); auto; right.
    all: try (apply find_y_some in E2; destruct E2 as (li & H1 & H2 & ->);
              exists li; unfold is_anchor_line; rewrite H2, orb_true_r; auto; fail).
    all: apply find_y_some in E1; destruct E1 as (li & H1 & H2 & ->);
      exists li; unfold is_anchor_line; rewrite H2; auto.
  - intros Hall. unfold absinfo_y.
    rewrite !find_y_none; [ reflexivity | | ];
      apply Forall_forall; intros li Hin; rewrite Forall_forall in Hall;
      specialize (Hall li Hin); unfold is_anchor_line in Hall;
      apply orb_false_elim in Hall; apply Hall.
Qed.

Lemma absinfo_y_bound_witness :
  Forall (fun li => is_anchor_line li = false) example_page_lines /\
  absinfo_y 1000 example_page_lines = (1000 * (62 # 100))%Q.
Proof.
  assert (Hall : Forall (fun li => is_anchor_line li = false) example_page_lines).
  { apply Forall_of_forallb. vm_compute. reflexivity. }
  split; [ exact Hall | exact (proj2 (absinfo_y_bound 1000 example_page_lines) Hall) ].
Defined.

(** ** The shape of the affiliations of a page *)

Lemma resolve_affiliations_shape (t : str) (has_markers : bool)
      (author_lines aff_lines : list Line) :
  let d := affiliations (resolve t has_markers author_lines aff_lines) in
  d = [] \/
  (exists v, d = [(u "all", v)] /\ v <> []) \/
  (Forall key_ok (map fst d) /\ NoDup (map fst d)).
Proof.
  unfold resolve. destruct has_markers.
  - cbn [affiliations]. right. right.
    unfold parse_affiliations_with_markers.
    apply (@affiliations_loop_keys aff_lines [] None);
      [ constructor | constructor | discriminate ].
  - destruct (parse_authors_without_markers (join_lines author_lines)) as [al ea].
    cbn [affiliations]. unfold parse_affiliations_without_markers.
    match goal with
    | |- context [is_nil (strip ?x)] => destruct (is_nil (strip x))
    end; [ left; reflexivity | ].
    match goal with
    | |- context [if ?c then _ else _] => destruct c
    end; [ left; reflexivity | ].
    match goal with
    | |- context [is_nil (fix_merged_text ?x)] =>
        destruct (fix_merged_text x) as [|c0 v0]
    end; [ left; reflexivity | ].
    right. left. eexists. split; [ reflexivity | discriminate ].
Qed.

(** X21: The affiliations of a page are an empty map, or the single entry "all"
    with a text that is not empty (unmarked path), or a map whose keys are
    single lower-case ASCII letters without repeats (marker path): the two
    kinds of key are never mixed. *)
Theorem front_matter_affiliations_shape (H : Q) (words : list Word) :
  let d := affiliations (parse_front_matter_page1 H words) in
  d = [] \/
  (exists v, d = [(u "all", v)] /\ v <> []) \/
  (Forall key_ok (map fst d) /\ NoDup (map fst d)).
Proof.
  unfold parse_front_matter_page1. cbv zeta.
  destruct (is_nil words); [ left; reflexivity | ].
  destruct (is_nil (top_lines H (cluster_lines words 3 3))); [ left; reflexivity | ].
  destruct (split_zone _) as [[hm al] afl].
  apply resolve_affiliations_shape.
Qed.

(** ** The position of a line *)




